(** * AI camera reader: the perception-to-speech pipeline of [app.py]

    A shallow embedding of [src/app.py] and the properties of its text
    normaliser, similarity scorer, duplicate filter, capture loop and
    background speech worker.

    Modelling conventions.
    - A Python [str] is a [string]; a character is a code point below 256
      (the Latin-1 range), so [isspace] and [lower] are the restrictions of
      Python's [str.isspace] and [str.lower] to that range.
    - A Python [int] is a [Z]; [len] gives a [nat] that is injected in [Z]
      where the code compares it with an [int].
    - A finite Python [float] is the rational number it denotes, in [Q].
      The definitions at top level compute [/] and [-] exactly; they carry
      the properties that do not depend on how a quotient or a difference
      is rounded. The module [Binary64] has the same functions with the
      result of [/] and [-] rounded to the nearest double, ties to even, as
      IEEE-754 binary64 does; it carries the properties of the score and of
      the time gate that do. Infinities and NaN are outside both.
    - A Python [set] of strings is a [gset string].
    - A call that can raise returns a [result]. *)

From Stdlib Require Import ZArith QArith Qround Qabs Ascii String List Lia Floats.
From stdpp Require Import base tactics option list gmap sets strings relations.

#[local] Set Warnings "-inexact-float".

#[local] Open Scope string_scope.

(** ** Python built-ins used by the program *)

Module Py.

(** [str.isspace] on one character: TAB, LF, VT, FF, CR, the separators
    FS, GS, RS, US, the space, NEL (0x85) and the no-break space (0xA0). *)
Definition isspace (c : ascii) : bool :=
  let n := N_of_ascii c in
  ((9 <=? n) && (n <=? 13) || (28 <=? n) && (n <=? 32)
   || (n =? 133) || (n =? 160))%N.

(** [str.lower] on one character: A-Z and the accented capitals 0xC0-0xDE
    (the multiplication sign 0xD7 apart) move up by 32. *)
Definition lower_char (c : ascii) : ascii :=
  let n := N_of_ascii c in
  if ((65 <=? n) && (n <=? 90)
      || (192 <=? n) && (n <=? 222) && negb (n =? 215))%N
  then ascii_of_N (n + 32) else c.

Fixpoint lower (s : string) : string :=
  match s with
  | "" => ""
  | String c s' => String (lower_char c) (lower s')
  end.

(** The truth value of a string: [not s] holds of the empty string only. *)
Definition truthy (s : string) : bool :=
  match s with "" => false | String _ _ => true end.

(** [str.split()] with no separator: the maximal runs of characters that
    are not white space, in order; no empty string is ever produced.
    [split_from s] is the run that starts at the head of [s] (empty when
    [s] starts with white space) and the runs after it. *)
Definition push_word (w : string) (ws : list string) : list string :=
  if truthy w then w :: ws else ws.

Fixpoint split_from (s : string) : string * list string :=
  match s with
  | "" => ("", [])
  | String c s' =>
      let '(w, ws) := split_from s' in
      if isspace c then ("", push_word w ws) else (String c w, ws)
  end.

Definition split (s : string) : list string :=
  let '(w, ws) := split_from s in push_word w ws.

(** [sep.join(ws)]. *)
Fixpoint join (sep : string) (ws : list string) : string :=
  match ws with
  | [] => ""
  | [w] => w
  | w :: ws' => w ++ sep ++ join sep ws'
  end.

(** [str.strip()] with no argument: white space removed at both ends. *)
Fixpoint lstrip (s : string) : string :=
  match s with
  | "" => ""
  | String c s' => if isspace c then lstrip s' else s
  end.

Fixpoint rstrip (s : string) : string :=
  match s with
  | "" => ""
  | String c s' =>
      let r := rstrip s' in
      if isspace c && negb (truthy r) then "" else String c r
  end.

Definition strip (s : string) : string := rstrip (lstrip s).

(** [len(s)] as a Python [int]. *)
Definition len (s : string) : Z := Z.of_nat (String.length s).

(** A string made of white space only (the empty string included). *)
Fixpoint blank (s : string) : bool :=
  match s with
  | "" => true
  | String c s' => isspace c && blank s'
  end.

(** A token: not empty and free of white space. *)
Fixpoint spaceless (s : string) : bool :=
  match s with
  | "" => true
  | String c s' => negb (isspace c) && spaceless s'
  end.

Definition token (w : string) : Prop := truthy w = true ∧ spaceless w = true.

End Py.

(** ** The pure functions of [app.py] *)

(** [normalize_text], line 49. *)
Definition normalize_text (text : string) : string :=
  Py.strip (Py.join " " (Py.split text)).

(** Python exceptions the program can meet in its own arithmetic. *)
Inductive exn : Type := ZeroDivisionError.

Inductive result (A : Type) : Type :=
| Ok (a : A)
| Raise (e : exn).
Arguments Ok {A} a.
Arguments Raise {A} e.

(** [i / u] on two lengths: the quotient, not rounded ([Binary64.truediv]
    rounds it), and an exception on a zero divisor. *)
Definition truediv (i u : nat) : result Q :=
  match u with
  | O => Raise ZeroDivisionError
  | S _ => Ok (Z.of_nat i # Pos.of_nat u)
  end.

(** [x < y] on numbers, as a boolean. *)
Definition Qlt_bool (x y : Q) : bool := negb (Qle_bool y x).

(** [set(s.lower().split())], lines 54 and 55. *)
Definition token_set (s : string) : gset string :=
  list_to_set (Py.split (Py.lower s)).

(** The truth value of a set: [not s] holds of the empty set only. *)
Definition nonempty (s : gset string) : bool := bool_decide (s ≠ ∅).

(** [jaccard_similarity], lines 53 to 60. *)
Definition jaccard_similarity (a b : string) : result Q :=
  let set_a := token_set a in
  let set_b := token_set b in
  if negb (nonempty set_a) && negb (nonempty set_b) then Ok 1%Q
  else if negb (nonempty set_a) || negb (nonempty set_b) then Ok 0%Q
  else truediv (size (set_a ∩ set_b)) (size (set_a ∪ set_b)).

(** [extract_text], lines 63 to 68. The image pipeline and the OCR engine are
    external: [raw_text] is what [pytesseract.image_to_string] returned. *)
Definition extract_text (raw_text : string) : string := normalize_text raw_text.

(** ** The capture loop of [main] *)

Record AppConfig : Type := {
  camera_index : Z;
  ocr_interval : Q;
  min_text_length : Z;
  similarity_threshold : Q
}.

(** The locals of [main] that live across iterations (lines 112 and 113). *)
Record Locals : Type := { last_text : string; last_ocr : Q }.

Definition initial : Locals := {| last_text := ""; last_ocr := 0 |}.

(** What the outside world answers during one iteration, if asked:
    [cap.read()], the OCR engine on that frame, [time.time()], and
    [cv2.waitKey(1)]. *)
Record Iteration : Type := {
  read_ok : bool;
  ocr_raw : string;
  clock : Q;
  key : Z
}.

(** The calls one iteration makes to the outside world, in order. *)
Inductive Event : Type :=
| Warning                (* line 121 *)
| Imshow                 (* line 124 *)
| Ocr                    (* line 129 *)
| Detected (text : string) (* line 133 *)
| Say (text : string)    (* line 134 *)
| WaitKey.               (* line 137 *)

(** Lines 130 to 135: the length gate and the similarity gate. The result
    is the locals, the calls made, and the exception raised, if any. *)
Definition dedup (config : AppConfig) (text : string) (st : Locals)
  : Locals * list Event * option exn :=
  if (min_text_length config <=? Py.len text)%Z then
    match jaccard_similarity text (last_text st) with
    | Raise e => (st, [], Some e)
    | Ok similarity =>
        if Qlt_bool similarity (similarity_threshold config)
        then ({| last_text := text; last_ocr := last_ocr st |},
              [Detected text; Say text], None)
        else (st, [], None)
    end
  else (st, [], None).

(** The two outcomes of the filter: the text is printed, spoken and
    remembered, or nothing happens. *)
Definition accepts (config : AppConfig) (text : string) (st : Locals) : Prop :=
  dedup config text st
  = ({| last_text := text; last_ocr := last_ocr st |},
     [Detected text; Say text], None).

Definition rejects (config : AppConfig) (text : string) (st : Locals) : Prop :=
  dedup config text st = (st, [], None).

(** Line 127: the time gate, [now - last_ocr >= config.ocr_interval], with
    the difference not rounded ([Binary64.should_sample] rounds it). *)
Definition should_sample (now last_sample interval : Q) : bool :=
  Qle_bool interval (now - last_sample).

(** Lines 126 to 135. *)
Definition sample (config : AppConfig) (io : Iteration) (st : Locals)
  : Locals * list Event * option exn :=
  let now := clock io in
  if should_sample now (last_ocr st) (ocr_interval config) then
    let st := {| last_text := last_text st; last_ocr := now |} in
    let text := extract_text (ocr_raw io) in
    let '(st, evs, exc) := dedup config text st in
    (st, Ocr :: evs, exc)
  else (st, [], None).

(** How an iteration ends: [continue] or the end of the body, [break], or
    an exception that leaves the loop. *)
Inductive Control : Type := Continue | Break | Raised (e : exn).

(** [cv2.waitKey(1) & 0xFF == ord("q")], line 137. *)
Definition quit_key (k : Z) : bool := (Z.land k 255 =? 113)%Z.

(** One iteration of [while True], lines 119 to 138. *)
Definition loop_body (config : AppConfig) (io : Iteration) (st : Locals)
  : Locals * list Event * Control :=
  if negb (read_ok io) then (st, [Warning], Continue)
  else
    let '(st, evs, exc) := sample config io st in
    match exc with
    | Some e => (st, Imshow :: evs, Raised e)
    | None =>
        (st, (Imshow :: evs ++ [WaitKey])%list,
         if quit_key (key io) then Break else Continue)
    end.

(** The loop over the answers of the outside world. [Continue] at the end
    means the loop is still running when the answers run out. *)
Fixpoint loop (config : AppConfig) (ios : list Iteration) (st : Locals)
  : Locals * list Event * Control :=
  match ios with
  | [] => (st, [], Continue)
  | io :: ios' =>
      match loop_body config io st with
      | (st', evs, Continue) =>
          let '(st'', evs', c) := loop config ios' st' in (st'', (evs ++ evs')%list, c)
      | r => r
      end
  end.

(** ** The speech worker, [TextSpeaker] *)

Module Speaker.

(** Where the worker thread is in [_worker]. *)
Inductive Worker : Type :=
| NotStarted
| AtWhile                   (* line 40, about to test the flag *)
| AtGet                     (* line 41, blocked in [get] *)
| AtBreak (text : string)   (* line 42, about to test the flag *)
| AtStrip (text : string)   (* line 44 *)
| InRunAndWait (text : string) (* lines 45 and 46, the engine is speaking *)
| Returned.

(** Where the client thread is: outside [close], or between its lines. *)
Inductive Client : Type :=
| Idle
| ClosePut     (* line 36 is next *)
| CloseJoin.   (* line 37 is next *)

(** What the speech engine does, as heard. *)
Inductive Audio : Type :=
| Started (text : string)
| Finished (text : string).

(** The queue, the flag, the two threads, and two histories kept for the
    statements only: the payloads [say] has put, and what was heard. *)
Record State : Type := St {
  q : list string;
  stop : bool;
  worker : Worker;
  client : Client;
  put_by_say : list string;
  heard : list Audio
}.

Definition init : State := St [] false NotStarted Idle [] [].

(** The steps of the worker thread, one per test, [get] and engine call. *)
Inductive worker_step : State → State → Prop :=
| while_enter qu c ps h :
    worker_step (St qu false AtWhile c ps h) (St qu false AtGet c ps h)
| while_exit qu c ps h :
    worker_step (St qu true AtWhile c ps h) (St qu true Returned c ps h)
| get text qu st c ps h :
    worker_step (St (text :: qu) st AtGet c ps h) (St qu st (AtBreak text) c ps h)
| break_exit text qu c ps h :
    worker_step (St qu true (AtBreak text) c ps h) (St qu true Returned c ps h)
| break_pass text qu c ps h :
    worker_step (St qu false (AtBreak text) c ps h) (St qu false (AtStrip text) c ps h)
| strip_blank text qu st c ps h :
    Py.truthy (Py.strip text) = false →
    worker_step (St qu st (AtStrip text) c ps h) (St qu st AtWhile c ps h)
| strip_speak text qu st c ps h :
    Py.truthy (Py.strip text) = true →
    worker_step (St qu st (AtStrip text) c ps h)
                (St qu st (InRunAndWait text) c ps (h ++ [Started text])%list)
| run_and_wait_returns text qu st c ps h :
    worker_step (St qu st (InRunAndWait text) c ps h)
                (St qu st AtWhile c ps (h ++ [Finished text])%list).

(** The steps of the client thread: [start], [say], and [close] line by
    line. [join] returns when the worker has returned or on its timeout. *)
Inductive client_step : State → State → Prop :=
| start qu st ps h :
    client_step (St qu st NotStarted Idle ps h) (St qu st AtWhile Idle ps h)
| say_put text qu st w ps h :
    Py.truthy (Py.strip text) = true →
    client_step (St qu st w Idle ps h) (St (qu ++ [text])%list st w Idle (ps ++ [text])%list h)
| say_skip text qu st w ps h :
    Py.truthy (Py.strip text) = false →
    client_step (St qu st w Idle ps h) (St qu st w Idle ps h)
| close_set qu st w ps h :
    client_step (St qu st w Idle ps h) (St qu true w ClosePut ps h)
| close_put qu st w ps h :
    client_step (St qu st w ClosePut ps h) (St (qu ++ [""])%list st w CloseJoin ps h)
| close_join qu st w ps h :
    client_step (St qu st w CloseJoin ps h) (St qu st w Idle ps h).

Definition step (s s' : State) : Prop := worker_step s s' ∨ client_step s s'.

Definition reachable (s : State) : Prop := rtc step init s.

(** What is heard when [done] were spoken to the end, and [cur] is being
    spoken. *)
Definition utterances (done : list string) (cur : option string) : list Audio :=
  (flat_map (λ t, [Started t; Finished t]) done
   ++ match cur with Some t => [Started t] | None => [] end)%list.

(** The payload the engine is speaking, if any. *)
Definition speaking (w : Worker) : option string :=
  match w with InRunAndWait text => Some text | _ => None end.

(** The payload the worker has taken from the queue and not yet spoken to
    the end, when it is one that [say] has put (the wake-up payload of
    [close] is blank). *)
Definition inflight (w : Worker) : list string :=
  match w with
  | AtBreak text | AtStrip text => if Py.truthy (Py.strip text) then [text] else []
  | InRunAndWait text => [text]
  | _ => []
  end.

(** The payloads of [say] that wait in the queue. *)
Definition queued (qu : list string) : list string :=
  List.filter (λ text, Py.truthy (Py.strip text)) qu.

(** The invariant of the channel: what was heard is the payloads [done],
    each from start to finish, then the start of the one being spoken; and
    [say] has put [done], then what the worker holds, then what waits in the
    queue. Once the worker has returned the queue is no longer read. *)
Definition invariant (s : State) : Prop :=
  ∃ done rest,
    heard s = utterances done (speaking (worker s))
    ∧ put_by_say s = (done ++ rest)%list
    ∧ match worker s with
      | Returned => True
      | w => rest = (inflight w ++ queued (q s))%list
      end.

End Speaker.

(** ** The arithmetic of binary64 doubles *)

Module Binary64.

(** The integer nearest to [q], ties to even. *)
Definition rne (q : Q) : Z :=
  let f := Qfloor q in
  match (q - inject_Z f ?= 1 # 2)%Q with
  | Lt => f
  | Gt => (f + 1)%Z
  | Eq => if Z.even f then f else (f + 1)%Z
  end.

(** [x] times 2 to the [k]. *)
Definition scale (x : Q) (k : Z) : Q :=
  if (0 <=? k)%Z then x * inject_Z (2 ^ k) else x / inject_Z (2 ^ (- k)).

(** The exponent of [x > 0]: the [e] with [2^e <= x < 2^(e+1)]. *)
Definition ilog2 (x : Q) : Z :=
  let k := (Z.log2 (Qnum x) - Z.log2 (Zpos (Qden x)))%Z in
  if Qle_bool (scale 1 k) x then k else (k - 1)%Z.

(** The double nearest to [x], ties to even: 53 significant bits down to the
    exponent -1074 of the smallest subnormal. Overflow is not modelled. *)
Definition round64 (x : Q) : Q :=
  let x := Qred x in
  if Qeq_bool x 0 then 0
  else
    let e := ilog2 (Qabs x) in
    let fe := Z.max (e - 52) (-1074) in
    Qred (scale (inject_Z (rne (scale x (- fe)))) fe).

(** The rational a finite primitive double denotes. *)
Definition Q_of_float (f : float) : Q :=
  match Prim2SF f with
  | S754_finite s m e => Qred (scale (inject_Z (if s then Zneg m else Zpos m)) e)
  | _ => 0
  end.

(** [i / u] on two lengths: the double nearest to the quotient, and an
    exception on a zero divisor. *)
Definition truediv (i u : nat) : result Q :=
  match u with
  | O => Raise ZeroDivisionError
  | S _ => Ok (round64 (Z.of_nat i # Pos.of_nat u))
  end.

(** [jaccard_similarity], lines 53 to 60. *)
Definition jaccard_similarity (a b : string) : result Q :=
  let set_a := token_set a in
  let set_b := token_set b in
  if negb (nonempty set_a) && negb (nonempty set_b) then Ok 1%Q
  else if negb (nonempty set_a) || negb (nonempty set_b) then Ok 0%Q
  else truediv (size (set_a ∩ set_b)) (size (set_a ∪ set_b)).

(** Lines 130 to 135. *)
Definition dedup (config : AppConfig) (text : string) (st : Locals)
  : Locals * list Event * option exn :=
  if (min_text_length config <=? Py.len text)%Z then
    match jaccard_similarity text (last_text st) with
    | Raise e => (st, [], Some e)
    | Ok similarity =>
        if Qlt_bool similarity (similarity_threshold config)
        then ({| last_text := text; last_ocr := last_ocr st |},
              [Detected text; Say text], None)
        else (st, [], None)
    end
  else (st, [], None).

Definition accepts (config : AppConfig) (text : string) (st : Locals) : Prop :=
  dedup config text st
  = ({| last_text := text; last_ocr := last_ocr st |},
     [Detected text; Say text], None).

Definition rejects (config : AppConfig) (text : string) (st : Locals) : Prop :=
  dedup config text st = (st, [], None).

(** Line 127: the time gate, [now - last_ocr >= config.ocr_interval]. *)
Definition should_sample (now last_sample interval : Q) : bool :=
  Qle_bool interval (round64 (now - last_sample)).

(** Lines 126 to 135. *)
Definition sample (config : AppConfig) (io : Iteration) (st : Locals)
  : Locals * list Event * option exn :=
  let now := clock io in
  if should_sample now (last_ocr st) (ocr_interval config) then
    let st := {| last_text := last_text st; last_ocr := now |} in
    let text := extract_text (ocr_raw io) in
    let '(st, evs, exc) := dedup config text st in
    (st, Ocr :: evs, exc)
  else (st, [], None).

(** One iteration of [while True], lines 119 to 138. *)
Definition loop_body (config : AppConfig) (io : Iteration) (st : Locals)
  : Locals * list Event * Control :=
  if negb (read_ok io) then (st, [Warning], Continue)
  else
    let '(st, evs, exc) := sample config io st in
    match exc with
    | Some e => (st, Imshow :: evs, Raised e)
    | None =>
        (st, (Imshow :: evs ++ [WaitKey])%list,
         if quit_key (key io) then Break else Continue)
    end.

(** The loop over the answers of the outside world. *)
Fixpoint loop (config : AppConfig) (ios : list Iteration) (st : Locals)
  : Locals * list Event * Control :=
  match ios with
  | [] => (st, [], Continue)
  | io :: ios' =>
      match loop_body config io st with
      | (st', evs, Continue) =>
          let '(st'', evs', c) := loop config ios' st' in
          (st'', (evs ++ evs')%list, c)
      | r => r
      end
  end.

End Binary64.

(** ** The whole of [main] *)

(** The texts handed to [speaker.say] (line 134), in order. *)
Fixpoint said (evs : list Event) : list string :=
  match evs with
  | [] => []
  | Say text :: evs' => text :: said evs'
  | _ :: evs' => said evs'
  end.

(** A frame that was read while the key [q] was down: the only way to line
    138. *)
Definition quits (io : Iteration) : bool := read_ok io && quit_key (key io).

(** [text] passes the similarity gate of line 132 against [prev]. *)
Definition novel (config : AppConfig) (prev text : string) : Prop :=
  ∃ v, jaccard_similarity text prev = Ok v
       ∧ (v < similarity_threshold config)%Q.

(** Each text of [l] stands in relation [R] to the one before it, the first
    one to [prev]. *)
Fixpoint chain (R : string → string → Prop) (prev : string) (l : list string)
  : Prop :=
  match l with
  | [] => True
  | text :: l' => R prev text ∧ chain R text l'
  end.

(** The calls of [main] outside the loop body, and those of the body. *)
Inductive MainEvent : Type :=
| SpeakerStart           (* lines 109 and 110 *)
| Banner                 (* line 115 *)
| InLoop (e : Event)     (* lines 119 to 138 *)
| SpeakerClose           (* line 140 *)
| CapRelease             (* line 141 *)
| DestroyAllWindows.     (* line 142 *)

(** How [main] stands when the answers of the outside world run out. *)
Inductive Exit : Type :=
| CameraError (index : Z)  (* the [RuntimeError] of line 107 *)
| Running                  (* still in the loop *)
| Quit                     (* left by [break], torn down, returned *)
| Propagated (e : exn).    (* left by an exception, torn down, re-raised *)

(** [main], lines 103 to 142, for a configuration already parsed.
    [is_opened] is the answer of [cap.isOpened()]. *)
Definition main (config : AppConfig) (is_opened : bool) (ios : list Iteration)
  : list MainEvent * Exit :=
  if negb is_opened then ([], CameraError (camera_index config))
  else
    let '(_, evs, c) := loop config ios initial in
    let body := ([SpeakerStart; Banner] ++ (InLoop <$> evs))%list in
    let teardown := [SpeakerClose; CapRelease; DestroyAllWindows] in
    match c with
    | Continue => (body, Running)
    | Break => ((body ++ teardown)%list, Quit)
    | Raised e => ((body ++ teardown)%list, Propagated e)
    end.

(** * Properties *)

Example normalize_text_ex :
  normalize_text (String "009" "  Hello" ++ String "010" "World  ") = "Hello World".
Proof. reflexivity. Qed.

Example split_ex : Py.split " a  bc d " = ["a"; "bc"; "d"].
Proof. reflexivity. Qed.

Example strip_ex : Py.strip "  a b  " = "a b".
Proof. reflexivity. Qed.

Example blank_ex :
  Py.blank (String "009" (String "010" "  ")) = true
  ∧ normalize_text (String "009" (String "010" "  ")) = "".
Proof. by split. Qed.

Example jaccard_ex1 : jaccard_similarity "a b c" "a b d" = Ok (2 # 4).
Proof. by vm_compute. Qed.

Example jaccard_ex2 :
  jaccard_similarity "" "" = Ok 1%Q
  ∧ jaccard_similarity "x" "" = Ok 0%Q
  ∧ jaccard_similarity "a b" "A  B" = Ok (2 # 2)
  ∧ jaccard_similarity "a b" "c d" = Ok (0 # 4).
Proof. repeat split; by vm_compute. Qed.

(** The scenario of the specification: the same text read twice, then a new
    one, one second and a half apart. *)
Example scenario :
  let config := {| camera_index := 0; ocr_interval := 1.2; min_text_length := 4;
                   similarity_threshold := 0.8 |} in
  let frame (raw : string) (now : Q) :=
    {| read_ok := true; ocr_raw := raw; clock := now; key := (-1) |} in
  loop config [frame "Hello World" 10%Q; frame "Hello World" 11.5%Q;
               frame "Goodbye Friend" 13%Q] initial
  = ({| last_text := "Goodbye Friend"; last_ocr := 13 |},
     [Imshow; Ocr; Detected "Hello World"; Say "Hello World"; WaitKey;
      Imshow; Ocr; WaitKey;
      Imshow; Ocr; Detected "Goodbye Friend"; Say "Goodbye Friend"; WaitKey],
     Continue).
Proof. by vm_compute. Qed.

(** [round64] against the primitive doubles of the kernel: quotients of
    small integers, decimal literals, differences, a subnormal and an integer
    beyond 53 bits. *)
Example round64_quotients :
  Binary64.round64 (1 # 3) = Binary64.Q_of_float (1 / 3)
  ∧ Binary64.round64 (1 # 10) = Binary64.Q_of_float (1 / 10)
  ∧ Binary64.round64 (4 # 5) = Binary64.Q_of_float (4 / 5)
  ∧ Binary64.round64 (2 # 3) = Binary64.Q_of_float (2 / 3)
  ∧ Binary64.round64 (1 # 7) = Binary64.Q_of_float (1 / 7)
  ∧ Binary64.round64 (2 # 4) = Binary64.Q_of_float (2 / 4).
Proof. repeat split; by vm_compute. Qed.

Example round64_literals :
  Binary64.round64 0.8 = Binary64.Q_of_float 0.8
  ∧ Binary64.round64 0.1 = Binary64.Q_of_float 0.1
  ∧ Binary64.round64 1.2 = Binary64.Q_of_float 1.2
  ∧ Binary64.round64 10.3 = Binary64.Q_of_float 10.3
  ∧ Binary64.round64 (-10.2) = Binary64.Q_of_float (-10.2)
  ∧ Binary64.round64 1700000000.123 = Binary64.Q_of_float 1700000000.123
  ∧ Binary64.round64 9007199254740993 = Binary64.Q_of_float 9007199254740993.
Proof. repeat split; by vm_compute. Qed.

Example round64_differences :
  Binary64.round64 (Binary64.Q_of_float 10.3 - Binary64.Q_of_float 9.0)
  = Binary64.Q_of_float (10.3 - 9.0)
  ∧ Binary64.round64 (Binary64.Q_of_float 1.4 - Binary64.Q_of_float 0.2)
    = Binary64.Q_of_float (1.4 - 0.2)
  ∧ Binary64.round64 (Binary64.Q_of_float 10.2 - Binary64.Q_of_float 9.0)
    = Binary64.Q_of_float (10.2 - 9.0)
  ∧ Binary64.round64 (Binary64.Q_of_float 0.2 - Binary64.Q_of_float 1.4)
    = Binary64.Q_of_float (0.2 - 1.4)
  ∧ Binary64.round64
      (Binary64.Q_of_float 1700000001.5 - Binary64.Q_of_float 1700000000.123)
    = Binary64.Q_of_float (1700000001.5 - 1700000000.123)
  ∧ Binary64.round64 (Binary64.Q_of_float 5e-324 * 3 / 2)
    = Binary64.Q_of_float (5e-324 * 3 / 2).
Proof. repeat split; by vm_compute. Qed.

(** The time gate on primitive doubles, at the same inputs as in the
    statement of the gate below. *)
Example should_sample_primitive :
  PrimFloat.leb 1.2 (10.0 - 9.0) = false
  ∧ PrimFloat.leb 1.2 (10.3 - 9.0) = true
  ∧ PrimFloat.leb 1.2 (1.4 - 0.2) = true
  ∧ PrimFloat.leb 1.2 (10.2 - 9.0) = false.
Proof. repeat split; reflexivity. Qed.

(** ** Strings: [split], [join] and [strip] *)

Section Strings.
Import Py.
#[local] Arguments String.append !_ _ / : simpl nomatch.

Lemma truthy_app_r s w : truthy w = true → truthy (s ++ w) = true.
Proof. by destruct s, w. Qed.

Lemma truthy_false s : truthy s = false → s = "".
Proof. by destruct s. Qed.

Lemma push_word_token w ws : truthy w = true → push_word w ws = w :: ws.
Proof. unfold push_word. by intros ->. Qed.

(** Every run [split_from] finds is free of white space, and the runs
    after the first one are tokens. *)
Lemma split_from_tokens s :
  spaceless (split_from s).1 = true ∧ Forall token (split_from s).2.
Proof.
  induction s as [|c s [IHw IHws]]; simpl; [by split|].
  destruct (split_from s) as [w ws]; simpl in *.
  destruct (isspace c) eqn:Hc; simpl.
  - split; [done|]. unfold push_word.
    destruct (truthy w) eqn:Hw; [|done].
    by constructor.
  - by rewrite Hc, IHw.
Qed.

Lemma split_tokens s : Forall token (split s).
Proof.
  unfold split. pose proof (split_from_tokens s) as [Hw Hws].
  destruct (split_from s) as [w ws]; simpl in *.
  unfold push_word. destruct (truthy w) eqn:Hw'; [|done].
  by constructor.
Qed.

(** A run free of white space in front of [r] extends the first run of [r]. *)
Lemma split_from_app w r :
  spaceless w = true →
  split_from (w ++ r) = ((w ++ (split_from r).1)%string, (split_from r).2).
Proof.
  induction w as [|c w IH]; simpl; intros Hw.
  - by destruct (split_from r).
  - apply andb_prop in Hw as [Hc Hw]. rewrite (IH Hw).
    apply negb_true_iff in Hc. by rewrite Hc.
Qed.

Lemma split_from_spaceless w : spaceless w = true → split_from w = (w, []).
Proof.
  induction w as [|c w IH]; simpl; intros Hw; [done|].
  apply andb_prop in Hw as [Hc Hw]. rewrite (IH Hw).
  apply negb_true_iff in Hc. by rewrite Hc.
Qed.

Lemma string_app_empty_r (s : string) : (s ++ "")%string = s.
Proof. induction s; simpl; by f_equal. Qed.

(** [split] undoes [join] on tokens. *)
Lemma split_join ws : Forall token ws → split (join " " ws) = ws.
Proof.
  induction 1 as [|w ws [Hne Hsp] Hws IH]; [done|].
  destruct ws as [|w' ws].
  - simpl. unfold split. rewrite (split_from_spaceless w Hsp).
    by apply push_word_token.
  - change (join " " (w :: w' :: ws))
      with (w ++ String " " (join " " (w' :: ws)))%string.
    unfold split. rewrite (split_from_app _ _ Hsp).
    change (split_from (String " " (join " " (w' :: ws))))
      with (let '(v, vs) := split_from (join " " (w' :: ws)) in
            ("", push_word v vs)).
    unfold split in IH. destruct (split_from (join " " (w' :: ws))) as [v vs].
    simpl. rewrite string_app_empty_r, IH. by apply push_word_token.
Qed.

Lemma lstrip_token_app w r : token w → lstrip (w ++ r) = (w ++ r)%string.
Proof.
  intros [Hne Hsp]. destruct w as [|c w]; [done|]. simpl in *.
  apply andb_prop in Hsp as [Hc _]. apply negb_true_iff in Hc. by rewrite Hc.
Qed.

Lemma rstrip_spaceless w : spaceless w = true → rstrip w = w.
Proof.
  induction w as [|c w IH]; simpl; intros Hw; [done|].
  apply andb_prop in Hw as [Hc Hw]. rewrite (IH Hw).
  apply negb_true_iff in Hc. by rewrite Hc.
Qed.

Lemma rstrip_app_token s w : token w → rstrip (s ++ w) = (s ++ w)%string.
Proof.
  intros [Hne Hsp]. induction s as [|c s IH]; simpl.
  - by apply rstrip_spaceless.
  - rewrite IH, (truthy_app_r s w Hne). simpl. by rewrite andb_false_r.
Qed.

(** A non-empty list of tokens joins into a string that starts with its
    first token and ends with its last. *)
Lemma join_ends ws :
  Forall token ws → ws ≠ [] →
  (∃ w r, token w ∧ join " " ws = (w ++ r)%string)
  ∧ (∃ s w, token w ∧ join " " ws = (s ++ w)%string).
Proof.
  induction 1 as [|w ws Hw Hws IH]; [done|]. intros _.
  destruct ws as [|w' ws].
  - split; [exists w, ""|exists "", w]; split; try done.
    simpl. by rewrite string_app_empty_r.
  - destruct IH as [_ (s & v & Hv & Hj)]; [done|].
    change (join " " (w :: w' :: ws))
      with (w ++ String " " (join " " (w' :: ws)))%string.
    split; [by exists w, (String " " (join " " (w' :: ws)))|].
    exists (w ++ String " " s)%string, v. split; [done|].
    rewrite Hj. clear. induction w; simpl; by f_equal.
Qed.

Lemma strip_join ws : Forall token ws → strip (join " " ws) = join " " ws.
Proof.
  intros Hws. destruct ws as [|w ws]; [done|].
  destruct (join_ends (w :: ws) Hws) as [(v & r & Hv & Hl) (s & u & Hu & Hr)];
    [done|].
  unfold strip. rewrite Hl at 1. rewrite (lstrip_token_app _ _ Hv), <- Hl.
  rewrite Hr. by apply rstrip_app_token.
Qed.

Lemma normalize_text_join s : normalize_text s = join " " (split s).
Proof. apply strip_join, split_tokens. Qed.

Lemma split_normalize_text s : split (normalize_text s) = split s.
Proof. rewrite normalize_text_join. apply split_join, split_tokens. Qed.

Lemma split_from_blank s : blank s = true → split_from s = ("", []).
Proof.
  induction s as [|c s IH]; simpl; intros Hs; [done|].
  apply andb_prop in Hs as [Hc Hs]. by rewrite (IH Hs), Hc.
Qed.

Lemma split_blank s : blank s = true → split s = [].
Proof. intros Hs. unfold split. by rewrite (split_from_blank s Hs). Qed.

End Strings.

(** C7. [normalize_text] is idempotent, and it maps every string made of
    white space only, the empty string included, to the empty string. *)
Theorem normalize_text_idempotent :
  (∀ s, normalize_text (normalize_text s) = normalize_text s)
  ∧ (∀ s, Py.blank s = true → normalize_text s = "").
Proof.
  split.
  - intros s. rewrite (normalize_text_join (normalize_text s)).
    by rewrite split_normalize_text, <- normalize_text_join.
  - intros s Hs. unfold normalize_text. by rewrite (split_blank s Hs).
Qed.

(** ** The similarity score *)

Section Similarity.
Import Py.

Lemma isspace_lower_char c : isspace (lower_char c) = isspace c.
Proof. by destruct c as [[] [] [] [] [] [] [] []]. Qed.

Lemma truthy_lower s : truthy (lower s) = truthy s.
Proof. by destruct s. Qed.

Lemma split_from_lower s :
  split_from (lower s) = (lower (split_from s).1, lower <$> (split_from s).2).
Proof.
  induction s as [|c s IH]; simpl; [done|].
  rewrite IH, isspace_lower_char. destruct (split_from s) as [w ws]; simpl.
  destruct (isspace c); [|done].
  unfold push_word. rewrite truthy_lower. by destruct (truthy w).
Qed.

(** Lower-casing commutes with tokenising. *)
Lemma split_lower s : split (lower s) = lower <$> split s.
Proof.
  unfold split. rewrite split_from_lower.
  destruct (split_from s) as [w ws]; simpl.
  unfold push_word. rewrite truthy_lower. by destruct (truthy w).
Qed.

Lemma token_set_empty s : token_set s = ∅ ↔ split s = [].
Proof.
  unfold token_set. rewrite split_lower.
  destruct (split s) as [|w ws]; simpl; [done|].
  split; [|done]. intros H. exfalso.
  assert (lower w ∈ (∅ : gset string)) as Hin by (rewrite <- H; set_solver).
  set_solver.
Qed.

Lemma nonempty_false (X : gset string) : nonempty X = false ↔ X = ∅.
Proof.
  unfold nonempty. rewrite bool_decide_eq_false. split; [|by intros ->; auto].
  intros H. by destruct (decide (X = ∅)).
Qed.

Lemma nonempty_true (X : gset string) : nonempty X = true ↔ X ≠ ∅.
Proof. unfold nonempty. by rewrite bool_decide_eq_true. Qed.

Lemma size_inter_le_union (X Y : gset string) : (size (X ∩ Y) ≤ size (X ∪ Y))%nat.
Proof.
  apply subseteq_size. intros x [Hx _]%elem_of_intersection.
  by apply elem_of_union_l.
Qed.

Lemma size_union_pos (X Y : gset string) : X ≠ ∅ → (0 < size (X ∪ Y))%nat.
Proof.
  intros HX. destruct (size (X ∪ Y)) eqn:Hs; [|lia].
  apply size_empty_inv in Hs. exfalso. apply HX. set_solver.
Qed.

(** The three cases of lines 56 to 60. *)
Lemma jaccard_similarity_cases a b :
  let A := token_set a in
  let B := token_set b in
  (A = ∅ ∧ B = ∅ ∧ jaccard_similarity a b = Ok 1%Q)
  ∨ ((A = ∅ ∧ B ≠ ∅ ∨ A ≠ ∅ ∧ B = ∅) ∧ jaccard_similarity a b = Ok 0%Q)
  ∨ (A ≠ ∅ ∧ B ≠ ∅ ∧ (0 < size (A ∪ B))%nat
     ∧ jaccard_similarity a b
       = Ok (Z.of_nat (size (A ∩ B)) # Pos.of_nat (size (A ∪ B)))).
Proof.
  intros A B. unfold jaccard_similarity. fold A B.
  destruct (nonempty A) eqn:HA, (nonempty B) eqn:HB; simpl;
    first [apply nonempty_true in HA | apply nonempty_false in HA];
    first [apply nonempty_true in HB | apply nonempty_false in HB].
  - right; right. pose proof (size_union_pos A B HA) as Hpos.
    repeat split; try done. unfold truediv.
    destruct (size (A ∪ B)); [lia|done].
  - right; left. split; [by right|done].
  - right; left. split; [by left|done].
  - by left.
Qed.

Lemma jaccard_similarity_sym a b :
  jaccard_similarity a b = jaccard_similarity b a.
Proof.
  unfold jaccard_similarity.
  rewrite (comm_L (∩) (token_set a)), (comm_L (∪) (token_set a)).
  by destruct (nonempty (token_set a)), (nonempty (token_set b)).
Qed.

Lemma ratio_bounds (i u : nat) :
  (i ≤ u)%nat → (0 < u)%nat → (0 <= Z.of_nat i # Pos.of_nat u)%Q ∧ (Z.of_nat i # Pos.of_nat u <= 1)%Q.
Proof.
  intros Hle Hpos. unfold Qle; simpl. split; [lia|].
  rewrite Z.mul_1_r, Z.mul_1_l.
  destruct u as [|u]; [lia|]. rewrite <- Pos.of_nat_succ, Zpos_P_of_succ_nat. lia.
Qed.

Lemma jaccard_similarity_self a :
  jaccard_similarity a a = Ok 1%Q
  ∨ ∃ n, jaccard_similarity a a = Ok (Z.pos n # n).
Proof.
  destruct (jaccard_similarity_cases a a) as [(_ & _ & H)|[[[[H1 H2]|[H1 H2]] _]|H]];
    [by left|done|done|].
  destruct H as (_ & _ & Hpos & H). right.
  rewrite H, (idemp_L (∩) (token_set a)), (idemp_L (∪) (token_set a)) in *.
  exists (Pos.of_nat (size (token_set a))).
  do 2 f_equal. destruct (size (token_set a)) as [|n]; [lia|].
  rewrite <- Pos.of_nat_succ, Zpos_P_of_succ_nat. lia.
Qed.

End Similarity.

(** ** The duplicate filter *)

Section Dedup.
Import Py.

Lemma Qlt_bool_iff x y : Qlt_bool x y = true ↔ (x < y)%Q.
Proof.
  unfold Qlt_bool. rewrite negb_true_iff, <- not_true_iff_false, Qle_bool_iff.
  split; [apply Qnot_le_lt|apply Qlt_not_le].
Qed.

Lemma Qlt_bool_false x y : Qlt_bool x y = false ↔ (y <= x)%Q.
Proof. unfold Qlt_bool. by rewrite negb_false_iff, Qle_bool_iff. Qed.

(** A normalised text that is not empty has a token. *)
Lemma token_set_extract_text raw :
  extract_text raw ≠ "" → token_set (extract_text raw) ≠ ∅.
Proof.
  unfold extract_text. intros Hne. rewrite token_set_empty, split_normalize_text.
  intros Hsplit. apply Hne. unfold normalize_text. by rewrite Hsplit.
Qed.

(** The filter past the length gate, in terms of the score. *)
Lemma dedup_length_passing config text st similarity :
  (min_text_length config <= len text)%Z →
  jaccard_similarity text (last_text st) = Ok similarity →
  dedup config text st
  = if Qlt_bool similarity (similarity_threshold config)
    then ({| last_text := text; last_ocr := last_ocr st |},
          [Detected text; Say text], None)
    else (st, [], None).
Proof.
  intros Hlen Hsim. unfold dedup. rewrite Hsim.
  by apply Z.leb_le in Hlen as ->.
Qed.

Lemma accepts_iff config text st similarity :
  (min_text_length config <= len text)%Z →
  jaccard_similarity text (last_text st) = Ok similarity →
  accepts config text st ↔ (similarity < similarity_threshold config)%Q.
Proof.
  intros Hlen Hsim. unfold accepts.
  rewrite (dedup_length_passing _ _ _ _ Hlen Hsim), <- Qlt_bool_iff.
  by destruct (Qlt_bool _ _).
Qed.

Lemma rejects_iff config text st similarity :
  (min_text_length config <= len text)%Z →
  jaccard_similarity text (last_text st) = Ok similarity →
  rejects config text st ↔ (similarity_threshold config <= similarity)%Q.
Proof.
  intros Hlen Hsim. unfold rejects.
  rewrite (dedup_length_passing _ _ _ _ Hlen Hsim), <- Qlt_bool_false.
  by destruct (Qlt_bool _ _).
Qed.

End Dedup.

(** C1, as the code has it. When no text was accepted yet, a detection whose
    normalised text is not empty and passes the length gate is accepted for
    every threshold above 0. *)
Theorem first_detection_accepted (config : AppConfig) (raw : string) (st : Locals) :
  last_text st = "" →
  extract_text raw ≠ "" →
  (min_text_length config <= Py.len (extract_text raw))%Z →
  (0 < similarity_threshold config)%Q →
  accepts config (extract_text raw) st.
Proof.
  intros Hlast Hne Hlen Hthr.
  apply (accepts_iff config _ st 0%Q Hlen); [|done].
  rewrite Hlast.
  destruct (jaccard_similarity_cases (extract_text raw) "")
    as [(HA & _)|[[_ H]|(_ & HB & _)]]; [|done|done].
  by apply token_set_extract_text in HA.
Qed.

Lemma first_detection_accepted_witness :
  accepts {| camera_index := 0; ocr_interval := 1.2; min_text_length := 4;
             similarity_threshold := 0.8 |}
          (extract_text "  Hello   World ") initial.
Proof.
  apply first_detection_accepted; [reflexivity|by vm_compute|by vm_compute|by vm_compute].
Defined.

(** C1 fails as stated, in two ways. At threshold 0 no text is accepted,
    the first one included; and with a minimum length of 0 an empty text passes
    the length gate, scores 1 against the empty [last_text] and is rejected. *)
Lemma first_detection_counterexample :
  let zero := {| camera_index := 0; ocr_interval := 1.2; min_text_length := 4;
                 similarity_threshold := 0 |} in
  let short := {| camera_index := 0; ocr_interval := 1.2; min_text_length := 0;
                  similarity_threshold := 0.8 |} in
  (last_text initial = ""
   ∧ (min_text_length zero <= Py.len (extract_text "Hello World"))%Z
   ∧ (0 <= similarity_threshold zero)%Q ∧ (similarity_threshold zero <= 1)%Q
   ∧ rejects zero (extract_text "Hello World") initial
   ∧ ¬ accepts zero (extract_text "Hello World") initial)
  ∧ ((min_text_length short <= Py.len (extract_text "  "))%Z
     ∧ (0 <= similarity_threshold short)%Q ∧ (similarity_threshold short <= 1)%Q
     ∧ rejects short (extract_text "  ") initial
     ∧ ¬ accepts short (extract_text "  ") initial).
Proof.
  repeat split; try (by vm_compute).
Qed.

(** ** The capture loop *)

Section Loop.

Lemma should_sample_iff now last_sample interval :
  should_sample now last_sample interval = true
  ↔ (interval <= now - last_sample)%Q.
Proof. apply Qle_bool_iff. Qed.

(** Lines 120 to 122: a failed read ends the iteration at once. *)
Lemma loop_body_failed_read config io st :
  read_ok io = false → loop_body config io st = (st, [Warning], Continue).
Proof. unfold loop_body. by intros ->. Qed.

Lemma loop_failed_reads config ios rest st :
  Forall (λ io, read_ok io = false) ios →
  loop config (ios ++ rest) st
  = let '(st', evs, c) := loop config rest st in
    (st', (replicate (length ios) Warning ++ evs)%list, c).
Proof.
  induction 1 as [|io ios Hio _ IH]; simpl.
  - by destruct (loop config rest st) as [[??]?].
  - rewrite (loop_body_failed_read _ _ _ Hio), IH.
    by destruct (loop config rest st) as [[??]?].
Qed.

(** What [dedup] leaves alone: the sampling clock. *)
Lemma dedup_last_ocr config text st :
  last_ocr (dedup config text st).1.1 = last_ocr st.
Proof.
  unfold dedup. destruct (_ <=? _)%Z; [|done].
  destruct (jaccard_similarity _ _); [|done]. by destruct (Qlt_bool _ _).
Qed.

(** An iteration with a good read: the time gate decides whether the clock
    moves to [now] and the OCR engine runs. *)
Lemma loop_body_good_read config io st :
  read_ok io = true →
  let '(st', evs, _) := loop_body config io st in
  if should_sample (clock io) (last_ocr st) (ocr_interval config)
  then last_ocr st' = clock io ∧ Ocr ∈ evs
  else st' = st ∧ Ocr ∉ evs.
Proof.
  intros Hok. unfold loop_body, sample. rewrite Hok; simpl.
  destruct (should_sample _ _ _).
  - pose proof (dedup_last_ocr config (extract_text (ocr_raw io))
                  {| last_text := last_text st; last_ocr := clock io |}) as Hclock.
    destruct (dedup _ _ _) as [[st' evs] [e|]]; simpl in *;
      (split; [done|]); rewrite elem_of_cons; right; by left.
  - simpl. split; [done|].
    intros [H|[H|H]%elem_of_cons]%elem_of_cons; try done.
    by apply elem_of_nil in H.
Qed.

End Loop.

(** C6. An iteration whose frame read fails leaves [last_text] and
    [last_ocr] as they were. *)
Theorem failed_read_keeps_locals (config : AppConfig) (io : Iteration) (st : Locals) :
  read_ok io = false →
  let st' := (loop_body config io st).1.1 in
  last_text st' = last_text st ∧ last_ocr st' = last_ocr st ∧ st' = st.
Proof. intros Hio. by rewrite (loop_body_failed_read _ _ _ Hio). Qed.

Lemma failed_read_keeps_locals_witness :
  let config := {| camera_index := 0; ocr_interval := 1.2; min_text_length := 4;
                   similarity_threshold := 0.8 |} in
  let io := {| read_ok := false; ocr_raw := "Goodbye Friend"; clock := 100;
               key := 113 |} in
  let st := {| last_text := "Hello World"; last_ocr := 9 |} in
  let st' := (loop_body config io st).1.1 in
  last_text st' = last_text st ∧ last_ocr st' = last_ocr st ∧ st' = st.
Proof.
  intros config io st.
  apply (failed_read_keeps_locals config io st). reflexivity.
Defined.

(** C9. The sampling clock starts at 0, so after any number of failed reads
    the first frame that is read is sampled as soon as the current time is at
    least the interval. *)
Theorem first_frame_sampled (config : AppConfig) (ios : list Iteration) (io : Iteration) :
  Forall (λ i, read_ok i = false) ios →
  read_ok io = true →
  (ocr_interval config <= clock io)%Q →
  should_sample (clock io) (last_ocr initial) (ocr_interval config) = true
  ∧ ∃ st evs c,
      loop config (ios ++ [io]) initial = (st, evs, c)
      ∧ last_ocr st = clock io ∧ Ocr ∈ evs.
Proof.
  intros Hios Hok Hnow.
  assert (should_sample (clock io) (last_ocr initial) (ocr_interval config) = true)
    as Hgate.
  { apply should_sample_iff. simpl.
    assert (clock io - 0 == clock io)%Q as -> by ring. done. }
  split; [done|]. rewrite (loop_failed_reads _ _ _ _ Hios). simpl.
  pose proof (loop_body_good_read config io initial Hok) as Hbody.
  rewrite Hgate in Hbody.
  destruct (loop_body config io initial) as [[st evs] c].
  destruct Hbody as [Hclock Hocr].
  destruct c; do 3 eexists; (split; [done|]); split; try done;
    rewrite elem_of_app; right; try done.
  rewrite elem_of_app. by left.
Qed.

Lemma first_frame_sampled_witness :
  let config := {| camera_index := 0; ocr_interval := 1.2; min_text_length := 4;
                   similarity_threshold := 0.8 |} in
  let bad := {| read_ok := false; ocr_raw := ""; clock := 1700000000; key := 113 |} in
  let io := {| read_ok := true; ocr_raw := "Hello World"; clock := 1700000001;
               key := (-1) |} in
  should_sample (clock io) (last_ocr initial) (ocr_interval config) = true
  ∧ ∃ st evs c,
      loop config ([bad; bad] ++ [io]) initial = (st, evs, c)
      ∧ last_ocr st = clock io ∧ Ocr ∈ evs.
Proof.
  intros config bad io.
  apply (first_frame_sampled config [bad; bad] io);
    [by repeat constructor|reflexivity|by vm_compute].
Defined.

(** C10. An iteration whose frame read fails does not poll the key: it
    ends by [continue] whatever key is waiting, and over any run of failed
    reads the loop stays in its body, with warnings as its only calls. *)
Theorem failed_reads_never_quit (config : AppConfig) (ios : list Iteration) (st : Locals) :
  Forall (λ io, read_ok io = false) ios →
  Forall (λ io, loop_body config io st = (st, [Warning], Continue)) ios
  ∧ loop config ios st = (st, replicate (length ios) Warning, Continue)
  ∧ (WaitKey ∉ snd (fst (loop config ios st)))
  ∧ snd (loop config ios st) ≠ Break.
Proof.
  intros Hios. split.
  { eapply Forall_impl; [done|]. intros io. apply loop_body_failed_read. }
  assert (loop config ios st = (st, replicate (length ios) Warning, Continue)) as ->.
  { pose proof (loop_failed_reads config ios [] st Hios) as H.
    simpl in H. by rewrite !app_nil_r in H. }
  split; [done|]. split; [|done]. simpl.
  intros [H _]%elem_of_replicate. discriminate.
Qed.

Lemma failed_reads_never_quit_witness :
  let config := {| camera_index := 0; ocr_interval := 1.2; min_text_length := 4;
                   similarity_threshold := 0.8 |} in
  let bad := {| read_ok := false; ocr_raw := "Hello World"; clock := 1700000000;
                key := 113 |} in
  Forall (λ io, loop_body config io initial = (initial, [Warning], Continue))
         [bad; bad; bad]
  ∧ loop config [bad; bad; bad] initial
    = (initial, replicate (length [bad; bad; bad]) Warning, Continue)
  ∧ (WaitKey ∉ snd (fst (loop config [bad; bad; bad] initial)))
  ∧ snd (loop config [bad; bad; bad] initial) ≠ Break.
Proof.
  intros config bad.
  apply (failed_reads_never_quit config [bad; bad; bad] initial).
  by repeat constructor.
Defined.

(** ** The speech worker *)

Section SpeechChannel.
Import Speaker.
#[local] Arguments queued : simpl never.

(** Once the worker has returned, no step changes that, nor what is heard. *)
Lemma returned_step s s' :
  worker s = Returned → step s s' →
  worker s' = Returned ∧ heard s' = heard s.
Proof. intros Hw [Hstep|Hstep]; by inversion Hstep; subst; simpl in *. Qed.

Lemma returned_steps s s' :
  worker s = Returned → rtc step s s' →
  worker s' = Returned ∧ heard s' = heard s.
Proof.
  intros Hw Hsteps. induction Hsteps as [|s s1 s2 Hstep _ IH]; [done|].
  destruct (returned_step s s1 Hw Hstep) as [Hw1 Hh1].
  destruct (IH Hw1) as [Hw2 Hh2]. split; [done|congruence].
Qed.

(** A worker that tests the flag when it is set returns without a sound. *)
Lemma observe_stop s s' :
  stop s = true →
  worker s = AtWhile ∨ (∃ text, worker s = AtBreak text) →
  worker_step s s' →
  worker s' = Returned ∧ heard s' = heard s.
Proof.
  intros Hstop Hw Hstep.
  inversion Hstep; subst; simpl in *; try done; by destruct Hw as [?|[??]].
Qed.

Lemma utterances_start done text :
  (utterances done None ++ [Started text])%list = utterances done (Some text).
Proof. unfold utterances. by rewrite app_nil_r. Qed.

Lemma utterances_finish done text :
  (utterances done (Some text) ++ [Finished text])%list
  = utterances (done ++ [text]) None.
Proof.
  unfold utterances. by rewrite flat_map_app, app_nil_r, <- app_assoc.
Qed.

Lemma queued_snoc qu text :
  queued (qu ++ [text])
  = (queued qu ++ if Py.truthy (Py.strip text) then [text] else [])%list.
Proof.
  unfold queued. rewrite List.filter_app. simpl.
  by destruct (Py.truthy (Py.strip text)).
Qed.

Lemma invariant_init : invariant init.
Proof. by exists [], []. Qed.

Lemma invariant_worker_step s s' : invariant s → worker_step s s' → invariant s'.
Proof.
  intros (done & rest & Hheard & Hput & Hrest) Hstep.
  inversion Hstep; subst; simpl in *.
  - by exists done, rest.
  - by exists done, rest.
  - exists done, rest. repeat split; try done.
    rewrite Hrest. unfold queued. simpl. by destruct (Py.truthy _).
  - by exists done, rest.
  - by exists done, rest.
  - exists done, rest. repeat split; try done. by rewrite H in Hrest.
  - exists done, rest. rewrite H in Hrest.
    by rewrite Hheard, utterances_start.
  - exists (done ++ [text])%list, (queued qu).
    rewrite Hheard, utterances_finish, Hput, Hrest. by rewrite <- app_assoc.
Qed.

Lemma invariant_client_step s s' : invariant s → client_step s s' → invariant s'.
Proof.
  intros (done & rest & Hheard & Hput & Hrest) Hstep.
  inversion Hstep; subst; simpl in *.
  - by exists done, rest.
  - exists done, (rest ++ [text])%list. simpl. rewrite Hput, app_assoc.
    repeat split; try done.
    destruct w; try done; rewrite queued_snoc, H, Hrest; simpl;
      by rewrite <- ?app_assoc.
  - by exists done, rest.
  - by exists done, rest.
  - exists done, rest. simpl. rewrite queued_snoc. simpl. by rewrite !app_nil_r.
  - by exists done, rest.
Qed.

Lemma invariant_reachable s : reachable s → invariant s.
Proof.
  intros Hs.
  apply (rtc_ind_r (R := step) invariant init); [apply invariant_init| |exact Hs].
  intros s1 s2 _ [Hstep|Hstep] IH.
  - by eapply invariant_worker_step.
  - by eapply invariant_client_step.
Qed.

End SpeechChannel.

(** C2. When the worker tests the stop flag and finds it set, at the head of
    the loop or right after [get] with any payload in hand and any queue, it
    returns without speaking, and whatever the threads do next nothing more is
    heard and the worker stays returned. *)
Theorem stop_observed_silences (s s' s'' : Speaker.State) :
  Speaker.stop s = true →
  Speaker.worker s = Speaker.AtWhile
  ∨ (∃ text, Speaker.worker s = Speaker.AtBreak text) →
  Speaker.worker_step s s' →
  rtc Speaker.step s' s'' →
  Speaker.worker s' = Speaker.Returned
  ∧ Speaker.heard s' = Speaker.heard s
  ∧ Speaker.worker s'' = Speaker.Returned
  ∧ Speaker.heard s'' = Speaker.heard s.
Proof.
  intros Hstop Hw Hstep Hsteps.
  destruct (observe_stop s s' Hstop Hw Hstep) as [Hw' Hh'].
  destruct (returned_steps s' s'' Hw' Hsteps) as [Hw'' Hh''].
  repeat split; congruence.
Qed.

Lemma stop_observed_silences_witness :
  let s := Speaker.St ["Goodbye Friend"; ""] true (Speaker.AtBreak "Hello World")
             Speaker.CloseJoin ["Hello World"; "Goodbye Friend"] [] in
  let s' := Speaker.St ["Goodbye Friend"; ""] true Speaker.Returned
              Speaker.CloseJoin ["Hello World"; "Goodbye Friend"] [] in
  let s'' := Speaker.St ["Goodbye Friend"; ""] true Speaker.Returned
               Speaker.Idle ["Hello World"; "Goodbye Friend"] [] in
  Speaker.worker s' = Speaker.Returned
  ∧ Speaker.heard s' = Speaker.heard s
  ∧ Speaker.worker s'' = Speaker.Returned
  ∧ Speaker.heard s'' = Speaker.heard s.
Proof.
  intros s s' s''.
  apply (stop_observed_silences s s' s'').
  - reflexivity.
  - right. exists "Hello World". reflexivity.
  - apply Speaker.break_exit.
  - apply rtc_once. right. apply Speaker.close_join.
Defined.

(** C4. In every reachable state what was heard is a prefix of the payloads
    [say] has put, in that order, each started and then finished before the
    next one starts: the payloads [done] were spoken to the end, the one the
    engine is speaking comes next, and the others follow. *)
Theorem speech_in_enqueue_order (s : Speaker.State) :
  Speaker.reachable s →
  Speaker.heard s `prefix_of` Speaker.utterances (Speaker.put_by_say s) None
  ∧ ∃ done rest,
      Speaker.put_by_say s
      = (done ++ option_list (Speaker.speaking (Speaker.worker s)) ++ rest)%list
      ∧ Speaker.heard s
        = Speaker.utterances done (Speaker.speaking (Speaker.worker s)).
Proof.
  intros (done & rest & Hheard & Hput & Hrest)%invariant_reachable.
  assert (∃ rest',
    Speaker.put_by_say s
    = (done ++ option_list (Speaker.speaking (Speaker.worker s)) ++ rest')%list)
    as [rest' Hput'].
  { rewrite Hput. destruct (Speaker.worker s); simpl; try by exists rest.
    exists (Speaker.queued (Speaker.q s)). by rewrite Hrest. }
  split; [|by exists done, rest'].
  rewrite Hheard, Hput'. unfold Speaker.utterances.
  rewrite !flat_map_app, !app_nil_r.
  destruct (Speaker.speaking (Speaker.worker s)) as [text|]; simpl.
  - eexists. by rewrite <- !app_assoc.
  - rewrite app_nil_r. by eexists.
Qed.

Lemma speech_in_enqueue_order_witness :
  let s := Speaker.St ["Goodbye Friend"] false (Speaker.InRunAndWait "Hello World")
             Speaker.Idle ["Hello World"; "Goodbye Friend"]
             [Speaker.Started "Hello World"] in
  Speaker.heard s `prefix_of` Speaker.utterances (Speaker.put_by_say s) None
  ∧ ∃ done rest,
      Speaker.put_by_say s
      = (done ++ option_list (Speaker.speaking (Speaker.worker s)) ++ rest)%list
      ∧ Speaker.heard s
        = Speaker.utterances done (Speaker.speaking (Speaker.worker s)).
Proof.
  intros s. apply (speech_in_enqueue_order s). unfold Speaker.reachable.
  eapply rtc_l; [right; apply Speaker.start|].
  eapply rtc_l; [right; apply (Speaker.say_put "Hello World"); reflexivity|].
  eapply rtc_l; [left; apply Speaker.while_enter|].
  eapply rtc_l; [left; apply Speaker.get|].
  eapply rtc_l; [right; apply (Speaker.say_put "Goodbye Friend"); reflexivity|].
  eapply rtc_l; [left; apply Speaker.break_pass|].
  eapply rtc_l; [left; apply Speaker.strip_speak; reflexivity|].
  apply rtc_refl.
Defined.

(** * Further properties of the code *)

(** ** [normalize_text] *)

Section Normalize.
Import Py.
#[local] Arguments String.append !_ _ / : simpl nomatch.

Lemma string_length_app (s t : string) :
  String.length (s ++ t) = (String.length s + String.length t)%nat.
Proof. induction s; simpl; by f_equal. Qed.

Lemma join_truthy ws : Forall token ws → ws ≠ [] → truthy (join " " ws) = true.
Proof.
  intros Hws Hne. destruct (join_ends ws Hws Hne) as [(w & r & [Hw _] & ->) _].
  by destruct w.
Qed.

Lemma split_from_nil_blank s :
  split_from s = ("", []) → blank s = true.
Proof.
  induction s as [|c s IH]; simpl; [done|].
  destruct (split_from s) as [w ws]. destruct (isspace c); [|done].
  unfold push_word. destruct w; simpl; [|done].
  intros [= ->]. by apply IH.
Qed.

Lemma split_nil_blank s : split s = [] → blank s = true.
Proof.
  unfold split. intros H. apply split_from_nil_blank.
  destruct (split_from s) as [w ws]. unfold push_word in H.
  destruct w; simpl in H; by subst.
Qed.

(** The characters of the runs, with one separator for each run after the
    first, fit in the string. *)
Lemma split_from_length s :
  (String.length (split_from s).1
   + list_sum (List.map (λ v, S (String.length v)) (split_from s).2)
   ≤ String.length s)%nat.
Proof.
  induction s as [|c s IH]; simpl; [done|].
  destruct (split_from s) as [w ws]; simpl in *.
  destruct (isspace c); simpl; [|lia].
  unfold push_word. destruct w; simpl in *; lia.
Qed.

Lemma join_length v vs :
  String.length (join " " (v :: vs))
  = (String.length v + list_sum (List.map (λ u, S (String.length u)) vs))%nat.
Proof.
  revert v. induction vs as [|u us IH]; intros v.
  - simpl. lia.
  - change (join " " (v :: u :: us)) with (v ++ String " " (join " " (u :: us)))%string.
    rewrite string_length_app. cbn [String.length]. rewrite IH.
    simpl. lia.
Qed.

End Normalize.

(** X1. [normalize_text] keeps the words of the text and their order, and
    puts exactly one space between them. *)
Theorem normalize_text_keeps_words (s : string) :
  normalize_text s = Py.join " " (Py.split s)
  ∧ Py.split (normalize_text s) = Py.split s
  ∧ Forall Py.token (Py.split s).
Proof.
  split; [apply normalize_text_join|].
  split; [apply split_normalize_text|apply split_tokens].
Qed.

(** X2. The normalised text is empty exactly when the text is made of white
    space only. *)
Theorem normalize_text_empty_iff (s : string) :
  normalize_text s = "" ↔ Py.blank s = true.
Proof.
  split.
  - intros Hs. apply split_nil_blank.
    destruct (Py.split s) as [|w ws] eqn:Hsplit; [done|].
    assert (Py.truthy (normalize_text s) = true) as Ht; [|by rewrite Hs in Ht].
    rewrite normalize_text_join, Hsplit.
    apply join_truthy; [|done]. rewrite <- Hsplit. apply split_tokens.
  - intros Hs. unfold normalize_text. by rewrite (split_blank s Hs).
Qed.

(** X3. Normalising never makes a text longer. *)
Theorem normalize_text_shorter (s : string) :
  (Py.len (normalize_text s) <= Py.len s)%Z.
Proof.
  unfold Py.len. apply inj_le. rewrite normalize_text_join.
  pose proof (split_from_length s) as Hlen. unfold Py.split.
  destruct (Py.split_from s) as [w ws]; simpl in Hlen.
  unfold Py.push_word. destruct w as [|c w]; simpl Py.truthy; cbv iota.
  - destruct ws as [|v vs]; [simpl; lia|].
    rewrite join_length. simpl in Hlen. lia.
  - rewrite join_length. lia.
Qed.

(** ** [jaccard_similarity] *)

Section Score.
Import Py.

Lemma lower_char_idemp c : lower_char (lower_char c) = lower_char c.
Proof. by destruct c as [[] [] [] [] [] [] [] []]. Qed.

Lemma lower_idemp s : lower (lower s) = lower s.
Proof. induction s as [|c s IH]; simpl; [done|]. by rewrite lower_char_idemp, IH. Qed.

Lemma token_set_lower s : token_set (lower s) = token_set s.
Proof. unfold token_set. by rewrite lower_idemp. Qed.

Lemma token_set_normalize_text s : token_set (normalize_text s) = token_set s.
Proof. unfold token_set. by rewrite !split_lower, split_normalize_text. Qed.

(** The score is a function of the two token sets. *)
Lemma jaccard_similarity_token_sets a a' b b' :
  token_set a = token_set a' → token_set b = token_set b' →
  jaccard_similarity a b = jaccard_similarity a' b'.
Proof. unfold jaccard_similarity. by intros -> ->. Qed.



End Score.

(** X4. The score ignores letter case and the layout of white space: lower
    casing or normalising either text does not change it. *)
Theorem jaccard_ignores_case_and_spacing (a b : string) :
  jaccard_similarity (Py.lower a) b = jaccard_similarity a b
  ∧ jaccard_similarity a (Py.lower b) = jaccard_similarity a b
  ∧ jaccard_similarity (normalize_text a) b = jaccard_similarity a b
  ∧ jaccard_similarity a (normalize_text b) = jaccard_similarity a b.
Proof.
  repeat split; apply jaccard_similarity_token_sets;
    auto using token_set_lower, token_set_normalize_text.
Qed.



(** ** The capture loop, further *)

Section LoopMore.

Lemma jaccard_similarity_total a b : ∃ v, jaccard_similarity a b = Ok v.
Proof.
  destruct (jaccard_similarity_cases a b) as [(_ & _ & H)|[[_ H]|(_ & _ & _ & H)]];
    eauto.
Qed.

(** The three outcomes of [dedup]: the text is too short, too similar, or
    new. It never raises. *)
Lemma dedup_cases config text st :
  ((Py.len text < min_text_length config)%Z ∧ dedup config text st = (st, [], None))
  ∨ ((min_text_length config <= Py.len text)%Z
     ∧ ¬ novel config (last_text st) text
     ∧ dedup config text st = (st, [], None))
  ∨ ((min_text_length config <= Py.len text)%Z
     ∧ novel config (last_text st) text
     ∧ dedup config text st
       = ({| last_text := text; last_ocr := last_ocr st |},
          [Detected text; Say text], None)).
Proof.
  unfold dedup, novel. destruct (Z.leb_spec (min_text_length config) (Py.len text));
    [|by left].
  right. destruct (jaccard_similarity_total text (last_text st)) as [v Hv].
  rewrite Hv. destruct (Qlt_bool v (similarity_threshold config)) eqn:Hlt.
  - right. apply Qlt_bool_iff in Hlt. eauto.
  - left. split; [done|]. split; [|done].
    intros (v' & [= <-] & Hlt'%Qlt_bool_iff). congruence.
Qed.

(** One iteration, by what it says. *)
Lemma loop_body_said config io st :
  ∃ st' evs c,
    loop_body config io st = (st', evs, c)
    ∧ c = (if quits io then Break else Continue)
    ∧ ((said evs = [] ∧ last_text st' = last_text st)
       ∨ (said evs = [extract_text (ocr_raw io)]
          ∧ last_text st' = extract_text (ocr_raw io)
          ∧ (min_text_length config <= Py.len (extract_text (ocr_raw io)))%Z
          ∧ novel config (last_text st) (extract_text (ocr_raw io)))).
Proof.
  unfold loop_body, quits, sample. destruct (read_ok io); simpl.
  2:{ do 3 eexists. split; [done|]. split; [done|]. by left. }
  destruct (should_sample _ _ _).
  2:{ do 3 eexists. split; [done|]. split; [done|]. by left. }
  destruct (dedup_cases config (extract_text (ocr_raw io))
              {| last_text := last_text st; last_ocr := clock io |})
    as [[_ ->]|[(_ & _ & ->)|(Hlen & Hnovel & ->)]]; simpl in *;
    do 3 eexists; (split; [done|]); (split; [done|]); [by left|by left|by right].
Qed.

Lemma said_app evs evs' : said (evs ++ evs') = (said evs ++ said evs')%list.
Proof.
  induction evs as [|e evs IH]; simpl; [done|]. destruct e; simpl; by rewrite ?IH.
Qed.

Lemma last_cons_default (u : string) l d d' :
  List.last (u :: l) d = List.last (u :: l) d'.
Proof. revert u. induction l as [|t l IH]; intros u; [done|]. apply (IH t). Qed.

Lemma chain_app R prev l l' :
  chain R prev l → chain R (List.last l prev) l' → chain R prev (l ++ l').
Proof.
  revert prev. induction l as [|t l IH]; intros prev; simpl; [done|].
  intros [Ht Hl] Hl'. split; [done|]. apply IH; [done|].
  destruct l as [|u l]; [done|]. by rewrite (last_cons_default u l t prev).
Qed.

Lemma normalize_text_fixed s : normalize_text (normalize_text s) = normalize_text s.
Proof.
  rewrite (normalize_text_join (normalize_text s)).
  by rewrite split_normalize_text, <- normalize_text_join.
Qed.

Lemma chain_impl (R R' : string → string → Prop) prev l :
  (∀ a b, R a b → R' a b) → chain R prev l → chain R' prev l.
Proof.
  intros HR. revert prev. induction l as [|t l IH]; intros prev; simpl; [done|].
  intros [Ht Hl]. split; [by apply HR|by apply IH].
Qed.

Lemma last_app_default (l l' : list string) d :
  List.last (l ++ l') d = List.last l' (List.last l d).
Proof.
  destruct l' as [|u l']; [by rewrite app_nil_r|].
  rewrite (last_cons_default u l' (List.last l d) d).
  induction l as [|t l IH]; [done|].
  rewrite <- IH. simpl. by destruct l.
Qed.

(** The loop after a first batch of answers goes on with the next batch
    from where it stands, unless it has left. *)
Lemma loop_app_eq config ios rest st :
  loop config (ios ++ rest) st
  = match loop config ios st with
    | (st', evs, Continue) =>
        let '(st'', evs', c) := loop config rest st' in
        (st'', (evs ++ evs')%list, c)
    | r => r
    end.
Proof.
  revert st. induction ios as [|io ios IH]; intros st; simpl.
  - by destruct (loop config rest st) as [[??]?].
  - destruct (loop_body config io st) as [[st1 evs1] []]; [|done|done].
    rewrite IH. destruct (loop config ios st1) as [[st2 evs2] []]; [|done|done].
    destruct (loop config rest st2) as [[st3 evs3] c]. by rewrite app_assoc.
Qed.

(** What a run says, and where it leaves [last_text]. *)
Lemma loop_said config ios st :
  ∃ st' evs c,
    loop config ios st = (st', evs, c)
    ∧ c = (if existsb quits ios then Break else Continue)
    ∧ last_text st' = List.last (said evs) (last_text st)
    ∧ chain (novel config) (last_text st) (said evs)
    ∧ Forall (λ text, normalize_text text = text
                      ∧ (min_text_length config <= Py.len text)%Z) (said evs).
Proof.
  revert st. induction ios as [|io ios IH]; intros st; simpl.
  { do 3 eexists. by repeat split. }
  destruct (loop_body_said config io st) as (st1 & evs1 & c1 & -> & -> & Hsaid).
  destruct (quits io); simpl.
  - do 3 eexists. split; [done|]. split; [done|].
    destruct Hsaid as [[-> ->]|(-> & -> & Hlen & Hnovel)]; simpl; [done|].
    repeat split; try done. repeat constructor; [|done].
    apply normalize_text_fixed.
  - destruct (IH st1) as (st2 & evs2 & c2 & -> & -> & Hlast & Hchain & Hall).
    do 3 eexists. split; [done|]. split; [done|].
    rewrite said_app, last_app_default.
    destruct Hsaid as [[-> Hl]|(-> & Hl & Hlen & Hnovel)]; simpl;
      rewrite Hl in *.
    + done.
    + repeat split; try done.
      constructor; [|done]. split; [|done]. apply normalize_text_fixed.
Qed.

End LoopMore.

Section LoopFacts.

Lemma strip_normalize_text s : Py.strip (normalize_text s) = normalize_text s.
Proof.
  rewrite normalize_text_join. apply strip_join, split_tokens.
Qed.

(** A text that passed a length gate of 1 or more is not blank after
    [strip]. *)
Lemma normalized_truthy text n :
  normalize_text text = text → (1 <= n)%Z → (n <= Py.len text)%Z →
  Py.truthy (Py.strip text) = true.
Proof.
  intros Hnorm Hn Hlen. rewrite <- Hnorm, strip_normalize_text, Hnorm.
  destruct text; [|done]. unfold Py.len in Hlen. simpl in Hlen. lia.
Qed.

(** Two texts with the same words are not new to each other below 1. *)
Lemma novel_token_sets config a b :
  (similarity_threshold config <= 1)%Q →
  novel config a b → token_set a ≠ token_set b.
Proof.
  intros Hthr (v & Hv & Hlt) Heq.
  rewrite (jaccard_similarity_token_sets b b a b eq_refl Heq) in Hv.
  assert (v == 1)%Q as H1.
  { destruct (jaccard_similarity_self b) as [H|[n H]];
      rewrite H in Hv; injection Hv as <-; [done|].
    unfold Qeq; simpl. lia. }
  rewrite H1 in Hlt. by apply Qlt_not_le in Hlt.
Qed.

End LoopFacts.

(** X7. The key test looks at the low byte of the key code only: the loop
    is left exactly on the codes that are 113, the letter q, modulo 256. *)
Theorem quit_key_low_byte (k : Z) : quit_key k = true ↔ (k mod 256 = 113)%Z.
Proof.
  unfold quit_key. rewrite Z.eqb_eq.
  change 255%Z with (Z.ones 8). by rewrite (Z.land_ones k 8 ltac:(lia)).
Qed.

(** X8. The loop is left by [break] exactly when some frame was read while
    the quit key was down, and it is never left by an exception of its own
    arithmetic. *)
Theorem loop_leaves_on_quit (config : AppConfig) (ios : list Iteration) (st : Locals) :
  snd (loop config ios st) = (if existsb quits ios then Break else Continue).
Proof.
  destruct (loop_said config ios st) as (st' & evs & c & -> & -> & _). done.
Qed.

(** X9. After the frame that quits no later frame is looked at; before it,
    a run over two batches of frames is the run over the first followed by
    the run over the second from the locals the first one left. *)
Theorem loop_app (config : AppConfig) (ios rest : list Iteration) (st : Locals) :
  loop config (ios ++ rest) st
  = if existsb quits ios then loop config ios st
    else let '(st', evs, _) := loop config ios st in
         let '(st'', evs', c) := loop config rest st' in
         (st'', (evs ++ evs')%list, c).
Proof.
  rewrite loop_app_eq.
  destruct (loop_said config ios st) as (st' & evs & c & -> & -> & _).
  by destruct (existsb quits ios).
Qed.

(** X10. Every text a run hands to [say] is a normalised text at least
    [min_text_length] long, and [last_text] ends as the last text said, or as
    it was when nothing was said. *)
Theorem said_texts_pass_gates (config : AppConfig) (ios : list Iteration) (st : Locals) :
  let '(st', evs, _) := loop config ios st in
  Forall (λ text, normalize_text text = text
                  ∧ (min_text_length config <= Py.len text)%Z) (said evs)
  ∧ last_text st' = List.last (said evs) (last_text st).
Proof.
  by destruct (loop_said config ios st) as (st' & evs & c & -> & _ & ? & _ & ?).
Qed.

(** X11. Each text a run says passed the similarity gate against the text
    said just before it (the first one against the [last_text] the run started
    with); so with a threshold of at most 1 no two texts said in a row have the
    same set of words, and in particular none is said twice in a row. *)
Theorem no_repeat_in_a_row (config : AppConfig) (ios : list Iteration) (st : Locals) :
  let evs := snd (fst (loop config ios st)) in
  chain (novel config) (last_text st) (said evs)
  ∧ ((similarity_threshold config <= 1)%Q →
     chain (λ a b, token_set a ≠ token_set b ∧ a ≠ b) (last_text st) (said evs)).
Proof.
  destruct (loop_said config ios st) as (st' & evs & c & -> & _ & _ & Hchain & _).
  simpl. split; [done|]. intros Hthr.
  eapply chain_impl; [|exact Hchain]. intros a b Hnovel.
  pose proof (novel_token_sets config a b Hthr Hnovel) as Hne.
  split; [done|]. by intros ->.
Qed.

(** X13. With a minimum length of 1 or more, no text the loop hands to
    [say] is blank, so [TextSpeaker.say] puts every one of them in the
    queue. *)
Theorem say_never_dropped (config : AppConfig) (ios : list Iteration) (st : Locals) :
  (1 <= min_text_length config)%Z →
  Forall (λ text,
            Py.truthy (Py.strip text) = true
            ∧ ∀ qu stop w ps h,
                Speaker.client_step
                  (Speaker.St qu stop w Speaker.Idle ps h)
                  (Speaker.St (qu ++ [text]) stop w Speaker.Idle (ps ++ [text]) h))
         (said (snd (fst (loop config ios st)))).
Proof.
  intros Hmin.
  destruct (loop_said config ios st) as (st' & evs & c & -> & _ & _ & _ & Hall).
  simpl. eapply Forall_impl; [exact Hall|]. intros text [Hnorm Hlen]. simpl.
  pose proof (normalized_truthy text _ Hnorm Hmin Hlen) as Ht.
  split; [done|]. intros. by apply Speaker.say_put.
Qed.

Lemma say_never_dropped_witness :
  let config := {| camera_index := 0; ocr_interval := 1.2; min_text_length := 4;
                   similarity_threshold := 0.8 |} in
  let io := {| read_ok := true; ocr_raw := " Hello   World "; clock := 10;
               key := (-1) |} in
  Forall (λ text,
            Py.truthy (Py.strip text) = true
            ∧ ∀ qu stop w ps h,
                Speaker.client_step
                  (Speaker.St qu stop w Speaker.Idle ps h)
                  (Speaker.St (qu ++ [text]) stop w Speaker.Idle (ps ++ [text]) h))
         (said (snd (fst (loop config [io] initial)))).
Proof.
  intros config io. apply (say_never_dropped config [io] initial). by vm_compute.
Defined.

(** X14. [main] without a camera raises before anything is started and
    tears nothing down; with one it starts the speaker, runs the loop, and
    returns exactly when some frame was read while the quit key was down, after
    closing the speaker, releasing the camera and destroying the windows, in
    that order and once. No exception of the loop's own arithmetic ends it. *)
Theorem main_exit (config : AppConfig) (ios : list Iteration) :
  main config false ios = ([], CameraError (camera_index config))
  ∧ main config true ios
    = let body := ([SpeakerStart; Banner]
                   ++ (InLoop <$> snd (fst (loop config ios initial))))%list in
      if existsb quits ios
      then ((body ++ [SpeakerClose; CapRelease; DestroyAllWindows])%list, Quit)
      else (body, Running).
Proof.
  split; [done|]. unfold main. simpl negb. cbv iota.
  destruct (loop_said config ios initial) as (st' & evs & c & -> & -> & _).
  by destruct (existsb quits ios).
Qed.

(** ** The speech worker, further *)

Section SpeakerMore.
Import Speaker.

(** Only payloads that are not blank reach the engine. *)
Lemma spoken_not_blank_step s s' :
  step s s' →
  Forall (λ a, match a with
               | Started text | Finished text => Py.truthy (Py.strip text) = true
               end) (heard s)
  ∧ (∀ text, worker s = InRunAndWait text → Py.truthy (Py.strip text) = true) →
  Forall (λ a, match a with
               | Started text | Finished text => Py.truthy (Py.strip text) = true
               end) (heard s')
  ∧ (∀ text, worker s' = InRunAndWait text → Py.truthy (Py.strip text) = true).
Proof.
  intros [Hstep|Hstep] [Hheard Hcur]; inversion Hstep; subst; simpl in *;
    try (split; [done|by intros]); try done.
  - split; [|by intros ? [= <-]]. apply Forall_app. split; [done|by repeat constructor].
  - split; [|done]. apply Forall_app. split; [done|].
    repeat constructor. by apply Hcur.
Qed.

(** While the flag is set, a worker blocked on an empty queue has the
    wake-up payload of [close] still to come. *)
Lemma wake_up_pending s :
  reachable s →
  stop s = true → worker s = AtGet → q s = [] → client s = ClosePut.
Proof.
  intros Hs.
  apply (rtc_ind_r (R := step)
           (λ s, stop s = true → worker s = AtGet → q s = [] → client s = ClosePut)
           init); [done| |exact Hs].
  intros s1 s2 _ [Hstep|Hstep] IH; inversion Hstep; subst; simpl in *;
    intros; try done; try (by destruct qu); by (discriminate IH).
Qed.

End SpeakerMore.

(** X15. The engine is only ever given payloads that are not blank: the
    wake-up payload of [close] and white space are never spoken. *)
Theorem never_speaks_blank (s : Speaker.State) :
  Speaker.reachable s →
  Forall (λ a, match a with
               | Speaker.Started text | Speaker.Finished text =>
                   Py.truthy (Py.strip text) = true
               end) (Speaker.heard s).
Proof.
  intros Hs.
  apply (rtc_ind_r (R := Speaker.step)
           (λ s, Forall (λ a, match a with
                              | Speaker.Started text | Speaker.Finished text =>
                                  Py.truthy (Py.strip text) = true
                              end) (Speaker.heard s)
                 ∧ (∀ text, Speaker.worker s = Speaker.InRunAndWait text →
                            Py.truthy (Py.strip text) = true))
           Speaker.init); [by split| |exact Hs].
  intros s1 s2 _ Hstep IH. by apply (spoken_not_blank_step s1 s2).
Qed.

Lemma never_speaks_blank_witness :
  let s := Speaker.St [""] true (Speaker.InRunAndWait "Hello World")
             Speaker.CloseJoin ["Hello World"] [Speaker.Started "Hello World"] in
  Forall (λ a, match a with
               | Speaker.Started text | Speaker.Finished text =>
                   Py.truthy (Py.strip text) = true
               end) (Speaker.heard s).
Proof.
  intros s. apply (never_speaks_blank s). unfold Speaker.reachable.
  eapply rtc_l; [right; apply Speaker.start|].
  eapply rtc_l; [right; apply (Speaker.say_put "Hello World"); reflexivity|].
  eapply rtc_l; [left; apply Speaker.while_enter|].
  eapply rtc_l; [left; apply Speaker.get|].
  eapply rtc_l; [left; apply Speaker.break_pass|].
  eapply rtc_l; [left; apply Speaker.strip_speak; reflexivity|].
  eapply rtc_l; [right; apply Speaker.close_set|].
  eapply rtc_l; [right; apply Speaker.close_put|].
  apply rtc_refl.
Defined.

(** X16. The stop flag is never cleared: once set it stays set whatever
    the two threads do. *)
Theorem stop_stays_set (s s' : Speaker.State) :
  Speaker.stop s = true → rtc Speaker.step s s' → Speaker.stop s' = true.
Proof.
  intros Hstop Hsteps. induction Hsteps as [|s1 s2 s3 Hstep _ IH]; [done|].
  apply IH. destruct Hstep as [Hstep|Hstep]; by inversion Hstep; subst.
Qed.

Lemma stop_stays_set_witness :
  Speaker.stop (Speaker.St ["Hello World"] true Speaker.AtGet Speaker.Idle
                  ["Hello World"] [])
  = true.
Proof.
  apply (stop_stays_set
           (Speaker.St [] true Speaker.AtGet Speaker.Idle [] [])); [reflexivity|].
  apply rtc_once. right. apply (Speaker.say_put "Hello World"). reflexivity.
Defined.

(** X18. Once [close] has set the flag and put its wake-up payload, a
    started worker returns within three steps of its own, wherever it is, a
    blocked [get] included; on the way it at most ends the utterance in course,
    or speaks the one payload it had already taken past the flag test. *)
Theorem close_wakes_worker (s : Speaker.State) :
  Speaker.reachable s →
  Speaker.stop s = true →
  Speaker.client s ≠ Speaker.ClosePut →
  Speaker.worker s ≠ Speaker.NotStarted →
  ∃ n s' extra,
    (n ≤ 3)%nat
    ∧ nsteps Speaker.worker_step n s s'
    ∧ Speaker.worker s' = Speaker.Returned
    ∧ Speaker.heard s' = (Speaker.heard s ++ extra)%list
    ∧ (List.length extra ≤ 2)%nat.
Proof.
  intros Hs Hstop Hclient Hworker.
  pose proof (wake_up_pending s Hs Hstop) as Hwake.
  destruct s as [qu st w c ps h]; simpl in *; subst st.
  destruct w as [| | |text|text|text|]; [done| | | | | |].
  - exists 1%nat, (Speaker.St qu true Speaker.Returned c ps h), [].
    rewrite app_nil_r. repeat split; [lia| |simpl; lia].
    eapply nsteps_l; [apply Speaker.while_exit|apply nsteps_O].
  - destruct qu as [|text qu]; [by specialize (Hwake eq_refl eq_refl)|].
    exists 2%nat, (Speaker.St qu true Speaker.Returned c ps h), [].
    rewrite app_nil_r. repeat split; [lia| |simpl; lia].
    eapply nsteps_l; [apply Speaker.get|].
    eapply nsteps_l; [apply Speaker.break_exit|apply nsteps_O].
  - exists 1%nat, (Speaker.St qu true Speaker.Returned c ps h), [].
    rewrite app_nil_r. repeat split; [lia| |simpl; lia].
    eapply nsteps_l; [apply Speaker.break_exit|apply nsteps_O].
  - destruct (Py.truthy (Py.strip text)) eqn:Htext.
    + exists 3%nat, (Speaker.St qu true Speaker.Returned c ps
                       ((h ++ [Speaker.Started text]) ++ [Speaker.Finished text])%list),
             [Speaker.Started text; Speaker.Finished text].
      repeat split; [lia| |by rewrite <- app_assoc|simpl; lia].
      eapply nsteps_l; [by apply Speaker.strip_speak|].
      eapply nsteps_l; [apply Speaker.run_and_wait_returns|].
      eapply nsteps_l; [apply Speaker.while_exit|apply nsteps_O].
    + exists 2%nat, (Speaker.St qu true Speaker.Returned c ps h), [].
      rewrite app_nil_r. repeat split; [lia| |simpl; lia].
      eapply nsteps_l; [by apply Speaker.strip_blank|].
      eapply nsteps_l; [apply Speaker.while_exit|apply nsteps_O].
  - exists 2%nat, (Speaker.St qu true Speaker.Returned c ps
                     (h ++ [Speaker.Finished text])%list),
           [Speaker.Finished text].
    repeat split; [lia| |simpl; lia].
    eapply nsteps_l; [apply Speaker.run_and_wait_returns|].
    eapply nsteps_l; [apply Speaker.while_exit|apply nsteps_O].
  - exists 0%nat, (Speaker.St qu true Speaker.Returned c ps h), [].
    rewrite app_nil_r. repeat split; [lia|apply nsteps_O|simpl; lia].
Qed.

Lemma close_wakes_worker_witness :
  let s := Speaker.St [""] true Speaker.AtGet Speaker.CloseJoin [] [] in
  ∃ n s' extra,
    (n ≤ 3)%nat
    ∧ nsteps Speaker.worker_step n s s'
    ∧ Speaker.worker s' = Speaker.Returned
    ∧ Speaker.heard s' = (Speaker.heard s ++ extra)%list
    ∧ (List.length extra ≤ 2)%nat.
Proof.
  intros s. apply (close_wakes_worker s); [|reflexivity|discriminate|discriminate].
  unfold Speaker.reachable.
  eapply rtc_l; [right; apply Speaker.start|].
  eapply rtc_l; [left; apply Speaker.while_enter|].
  eapply rtc_l; [right; apply Speaker.close_set|].
  eapply rtc_l; [right; apply Speaker.close_put|].
  apply rtc_refl.
Defined.

(** * The score and the time gate on doubles *)

(** ** Rounding *)

Section Rounding.
Import Binary64.

Lemma round64_proper x y : (x == y)%Q → round64 x = round64 y.
Proof. intros H. unfold round64. by rewrite (Qred_complete x y H). Qed.

Lemma round64_one : round64 1 = 1%Q.
Proof. by vm_compute. Qed.

(** A rational below an integer rounds below it. *)
Lemma rne_le_int q n : (q <= inject_Z n)%Q → (rne q <= n)%Z.
Proof.
  intros Hq. unfold rne.
  pose proof (Qfloor_resp_le _ _ Hq) as Hf. rewrite Qfloor_Z in Hf.
  destruct (Z.eq_dec (Qfloor q) n) as [Heq|Hne].
  - assert (q - inject_Z (Qfloor q) <= 0)%Q as Hr.
    { rewrite Heq. unfold Qminus. rewrite <- (Qplus_opp_r (inject_Z n)).
      by apply Qplus_le_l. }
    assert (q - inject_Z (Qfloor q) < 1 # 2)%Q as Hlt.
    { eapply Qle_lt_trans; [exact Hr|reflexivity]. }
    rewrite Qlt_alt in Hlt. rewrite Hlt. lia.
  - destruct (_ ?= _)%Q; [destruct (Z.even _)| |]; lia.
Qed.

Lemma rne_nonneg q : (0 <= q)%Q → (0 <= rne q)%Z.
Proof.
  intros Hq. unfold rne.
  pose proof (Qfloor_resp_le _ _ Hq) as Hf. change (Qfloor 0) with 0%Z in Hf.
  destruct (_ ?= _)%Q; [destruct (Z.even _)| |]; lia.
Qed.

Lemma scale_up x k : (0 <= k)%Z → scale x k = (x * inject_Z (2 ^ k))%Q.
Proof. intros Hk. unfold scale. by destruct (Z.leb_spec 0 k); [|lia]. Qed.

Lemma scale_down x k : (k < 0)%Z → scale x k = (x / inject_Z (2 ^ (- k)))%Q.
Proof. intros Hk. unfold scale. by destruct (Z.leb_spec 0 k); [lia|]. Qed.

(** Rounding keeps a number of the unit interval in it: 0 and 1 are
    doubles. *)
Lemma round64_unit x :
  (0 <= x)%Q → (x <= 1)%Q → (0 <= round64 x)%Q ∧ (round64 x <= 1)%Q.
Proof.
  intros H0 H1. unfold round64.
  destruct (Qeq_bool (Qred x) 0); [by split|].
  rewrite !Qred_correct.
  assert (Qred x == x)%Q as Hred by apply Qred_correct.
  assert (0 <= Qred x)%Q as H0' by (by rewrite Hred).
  assert (Qred x <= 1)%Q as H1' by (by rewrite Hred).
  set (y := Qred x) in *. clearbody y. clear x H0 H1 Hred.
  assert (ilog2 (Qabs y) <= 0)%Z as He.
  { destruct y as [n d]. unfold ilog2, Qabs, Qnum, Qden.
    assert (Z.log2 (Z.abs n) <= Z.log2 (Z.pos d))%Z.
    { apply Z.log2_le_mono. unfold Qle in H0', H1'. simpl in H0', H1'. lia. }
    destruct (Qle_bool _ _); lia. }
  set (fe := Z.max (ilog2 (Qabs y) - 52) (-1074)).
  assert (fe < 0)%Z as Hfe by (unfold fe; lia).
  set (p := (- fe)%Z). assert (0 < p)%Z as Hp by (unfold p; lia).
  rewrite (scale_down _ fe Hfe), (scale_up _ (- fe)) by lia. fold p.
  assert (0 < 2 ^ p)%Z as Hpow by (apply Z.pow_pos_nonneg; lia).
  assert (0 < inject_Z (2 ^ p))%Q as HpowQ.
  { unfold Qlt; simpl. lia. }
  assert (0 <= rne (y * inject_Z (2 ^ p)))%Z as Hlo.
  { apply rne_nonneg. apply Qmult_le_0_compat; [done|]. by apply Qlt_le_weak. }
  assert (rne (y * inject_Z (2 ^ p)) <= 2 ^ p)%Z as Hhi.
  { apply rne_le_int. rewrite <- (Qmult_1_l (inject_Z (2 ^ p))) at 2.
    apply Qmult_le_r; done. }
  split.
  - apply Qle_shift_div_l; [done|]. rewrite Qmult_0_l.
    unfold Qle; simpl. lia.
  - apply Qle_shift_div_r; [done|]. rewrite Qmult_1_l.
    unfold Qle; simpl. lia.
Qed.

(** The double nearest to [n / n] is 1. *)
Lemma round64_same (n : nat) :
  (0 < n)%nat → round64 (Z.of_nat n # Pos.of_nat n) = 1%Q.
Proof.
  intros Hn. rewrite <- round64_one. apply round64_proper.
  unfold Qeq; simpl. destruct n as [|n]; [lia|].
  rewrite <- Pos.of_nat_succ, Zpos_P_of_succ_nat. lia.
Qed.

End Rounding.

(** ** The score on doubles *)

Section Score64.

(** The three cases of lines 56 to 60, with the rounded quotient. *)
Lemma jaccard_similarity64_cases a b :
  let A := token_set a in
  let B := token_set b in
  (A = ∅ ∧ B = ∅ ∧ Binary64.jaccard_similarity a b = Ok 1%Q)
  ∨ ((A = ∅ ∧ B ≠ ∅ ∨ A ≠ ∅ ∧ B = ∅) ∧ Binary64.jaccard_similarity a b = Ok 0%Q)
  ∨ (A ≠ ∅ ∧ B ≠ ∅ ∧ (0 < size (A ∪ B))%nat
     ∧ Binary64.jaccard_similarity a b
       = Ok (Binary64.round64
               (Z.of_nat (size (A ∩ B)) # Pos.of_nat (size (A ∪ B))))).
Proof.
  intros A B. unfold Binary64.jaccard_similarity. fold A B.
  destruct (nonempty A) eqn:HA, (nonempty B) eqn:HB; simpl;
    first [apply nonempty_true in HA | apply nonempty_false in HA];
    first [apply nonempty_true in HB | apply nonempty_false in HB].
  - right; right. pose proof (size_union_pos A B HA) as Hpos.
    repeat split; try done. unfold Binary64.truediv.
    destruct (size (A ∪ B)); [lia|done].
  - right; left. split; [by right|done].
  - right; left. split; [by left|done].
  - by left.
Qed.

Lemma jaccard_similarity64_sym a b :
  Binary64.jaccard_similarity a b = Binary64.jaccard_similarity b a.
Proof.
  unfold Binary64.jaccard_similarity.
  rewrite (comm_L (∩) (token_set a)), (comm_L (∪) (token_set a)).
  by destruct (nonempty (token_set a)), (nonempty (token_set b)).
Qed.

(** A text scores exactly 1 against itself. *)
Lemma jaccard_similarity64_self a : Binary64.jaccard_similarity a a = Ok 1%Q.
Proof.
  destruct (jaccard_similarity64_cases a a)
    as [(_ & _ & H)|[[[[H1 H2]|[H1 H2]] _]|H]]; [done|done|done|].
  destruct H as (_ & _ & Hpos & H).
  rewrite H, (idemp_L (∩) (token_set a)), (idemp_L (∪) (token_set a)) in *.
  by rewrite round64_same.
Qed.

Lemma token_set_elem a w : w ∈ token_set a ↔ w ∈ Py.split (Py.lower a).
Proof. unfold token_set. apply elem_of_list_to_set. Qed.

End Score64.

(** C5. [jaccard_similarity] is symmetric and never raises; its value is a
    double between 0 and 1: 1 when both texts have no word, 0 when exactly one
    has none, and otherwise the double nearest to the size of the intersection
    over the size of the union of the two sets of lower-cased words, which are
    the words of the lower-cased texts. The examples are those of the
    specification, one with capitals and wide spacing, and one whose quotient
    1/3 is not a double. *)
Theorem jaccard_similarity_spec (a b : string) :
  let A := token_set a in
  let B := token_set b in
  (∀ w, w ∈ A ↔ w ∈ Py.split (Py.lower a))
  ∧ Binary64.jaccard_similarity a b = Binary64.jaccard_similarity b a
  ∧ (∃ v, Binary64.jaccard_similarity a b = Ok v
      ∧ (0 <= v)%Q ∧ (v <= 1)%Q
      ∧ (A = ∅ ∧ B = ∅ → v = 1%Q)
      ∧ (A = ∅ ∧ B ≠ ∅ ∨ A ≠ ∅ ∧ B = ∅ → v = 0%Q)
      ∧ (A ≠ ∅ ∧ B ≠ ∅ →
         (0 < size (A ∪ B))%nat
         ∧ v = Binary64.round64
                 (Z.of_nat (size (A ∩ B)) # Pos.of_nat (size (A ∪ B)))))
  ∧ token_set "Hello   World  hello" = {[ "hello"; "world" ]}
  ∧ Binary64.jaccard_similarity "" "" = Ok 1%Q
  ∧ Binary64.jaccard_similarity "x" "" = Ok 0%Q
  ∧ Binary64.jaccard_similarity "a b" "a b" = Ok 1%Q
  ∧ Binary64.jaccard_similarity "a b" "c d" = Ok 0%Q
  ∧ Binary64.jaccard_similarity "a b c" "a b d" = Ok (1 # 2)
  ∧ Binary64.jaccard_similarity "Hello World" " hello   WORLD " = Ok 1%Q
  ∧ Binary64.jaccard_similarity "a b c" "a"
    = Ok (6004799503160661 # 18014398509481984).
Proof.
  intros A B. split; [apply token_set_elem|].
  split; [apply jaccard_similarity64_sym|].
  split; [|repeat split; by vm_compute].
  destruct (jaccard_similarity64_cases a b)
    as [(HA & HB & ->)|[[H ->]|(HA & HB & Hpos & ->)]]; subst A B.
  - exists 1%Q. repeat split; try done; intuition congruence.
  - exists 0%Q. repeat split; try done; intuition congruence.
  - eexists. split; [done|].
    destruct (ratio_bounds _ _ (size_inter_le_union (token_set a) (token_set b)) Hpos)
      as [H0 H1].
    destruct (round64_unit _ H0 H1) as [H0' H1'].
    repeat split; try done; intuition congruence.
Qed.

(** ** The duplicate filter on doubles *)

Section Dedup64.

Lemma dedup64_length_passing config text st similarity :
  (min_text_length config <= Py.len text)%Z →
  Binary64.jaccard_similarity text (last_text st) = Ok similarity →
  Binary64.dedup config text st
  = if Qlt_bool similarity (similarity_threshold config)
    then ({| last_text := text; last_ocr := last_ocr st |},
          [Detected text; Say text], None)
    else (st, [], None).
Proof.
  intros Hlen Hsim. unfold Binary64.dedup. rewrite Hsim.
  by apply Z.leb_le in Hlen as ->.
Qed.

Lemma jaccard_similarity64_total a b :
  ∃ v, Binary64.jaccard_similarity a b = Ok v.
Proof.
  destruct (jaccard_similarity64_cases a b)
    as [(_ & _ & H)|[[_ H]|(_ & _ & _ & H)]]; eauto.
Qed.

End Dedup64.

(** C3. Past the length gate the filter rejects exactly when the score, the
    double that [jaccard_similarity] returns, is at least the threshold, and
    accepts exactly when it is below. A text equal to the last accepted one
    scores exactly 1 and is rejected at every threshold up to 1, 1 included.
    At the boundary: a score of 4/5 against the threshold 0.8, and one of 1/10
    against the threshold 0.1, round to the threshold itself and are
    rejected. *)
Theorem dedup_rejects_iff (config : AppConfig) (text : string) (st : Locals) :
  (min_text_length config <= Py.len text)%Z →
  (∃ similarity,
     Binary64.jaccard_similarity text (last_text st) = Ok similarity
     ∧ (Binary64.rejects config text st
        ↔ (similarity_threshold config <= similarity)%Q)
     ∧ (Binary64.accepts config text st
        ↔ (similarity < similarity_threshold config)%Q)
     ∧ (text = last_text st →
        similarity = 1%Q
        ∧ ((similarity_threshold config <= 1)%Q →
           Binary64.rejects config text st)))
  ∧ Binary64.rejects
      {| camera_index := 0; ocr_interval := Binary64.round64 1.2;
         min_text_length := 4; similarity_threshold := Binary64.round64 0.8 |}
      "a b c d" {| last_text := "a b c d e"; last_ocr := 0 |}
  ∧ Binary64.rejects
      {| camera_index := 0; ocr_interval := Binary64.round64 1.2;
         min_text_length := 4; similarity_threshold := Binary64.round64 0.1 |}
      "a b c d e f g h i j" {| last_text := "a"; last_ocr := 0 |}.
Proof.
  intros Hlen. split; [|split; by vm_compute].
  destruct (jaccard_similarity64_total text (last_text st)) as [v Hv].
  exists v. split; [done|].
  assert (Binary64.rejects config text st
          ↔ (similarity_threshold config <= v)%Q) as Hrej.
  { unfold Binary64.rejects.
    rewrite (dedup64_length_passing _ _ _ _ Hlen Hv), <- Qlt_bool_false.
    by destruct (Qlt_bool _ _). }
  split; [done|]. split.
  { unfold Binary64.accepts.
    rewrite (dedup64_length_passing _ _ _ _ Hlen Hv), <- Qlt_bool_iff.
    by destruct (Qlt_bool _ _). }
  intros Heq. rewrite <- Heq, jaccard_similarity64_self in Hv.
  injection Hv as <-. split; [done|]. intros Hthr. by apply Hrej.
Qed.

Lemma dedup_rejects_iff_witness :
  let config := {| camera_index := 0; ocr_interval := Binary64.round64 1.2;
                   min_text_length := 4; similarity_threshold := 1 |} in
  let st := {| last_text := "Hello World"; last_ocr := 3 |} in
  ∃ similarity,
    Binary64.jaccard_similarity "Hello World" (last_text st) = Ok similarity
    ∧ (Binary64.rejects config "Hello World" st
       ↔ (similarity_threshold config <= similarity)%Q)
    ∧ (Binary64.accepts config "Hello World" st
       ↔ (similarity < similarity_threshold config)%Q)
    ∧ ("Hello World" = last_text st →
       similarity = 1%Q
       ∧ ((similarity_threshold config <= 1)%Q →
          Binary64.rejects config "Hello World" st)).
Proof.
  intros config st.
  apply (dedup_rejects_iff config "Hello World" st). by vm_compute.
Defined.

(** ** The time gate on doubles *)

Section Gate64.

Lemma should_sample64_iff now last_sample interval :
  Binary64.should_sample now last_sample interval = true
  ↔ (interval <= Binary64.round64 (now - last_sample))%Q.
Proof. apply Qle_bool_iff. Qed.

Lemma should_sample64_false now last_sample interval :
  Binary64.should_sample now last_sample interval = false
  ↔ (Binary64.round64 (now - last_sample) < interval)%Q.
Proof.
  unfold Binary64.should_sample. rewrite <- not_true_iff_false, Qle_bool_iff.
  split; [apply Qnot_le_lt|apply Qlt_not_le].
Qed.

Lemma dedup64_last_ocr config text st :
  last_ocr (Binary64.dedup config text st).1.1 = last_ocr st.
Proof.
  unfold Binary64.dedup. destruct (_ <=? _)%Z; [|done].
  destruct (Binary64.jaccard_similarity _ _); [|done]. by destruct (Qlt_bool _ _).
Qed.

(** A frame that was read when the gate is open: the clock moves and the
    OCR engine runs. *)
Lemma loop_body64_open config io st :
  read_ok io = true →
  Binary64.should_sample (clock io) (last_ocr st) (ocr_interval config) = true →
  ∃ st' evs c,
    Binary64.loop_body config io st = (st', evs, c)
    ∧ last_ocr st' = clock io ∧ Ocr ∈ evs.
Proof.
  intros Hok Hgate. unfold Binary64.loop_body, Binary64.sample.
  rewrite Hok, Hgate; simpl.
  pose proof (dedup64_last_ocr config (extract_text (ocr_raw io))
                {| last_text := last_text st; last_ocr := clock io |}) as Hclock.
  destruct (Binary64.dedup _ _ _) as [[st' evs] [e|]]; simpl in *;
    do 3 eexists; (split; [done|]); (split; [done|]);
    rewrite elem_of_cons; right; by left.
Qed.

(** A frame when the gate is shut: nothing but the preview and the key. *)
Lemma loop_body64_shut config io st :
  Binary64.should_sample (clock io) (last_ocr st) (ocr_interval config) = false →
  ∃ evs c,
    Binary64.loop_body config io st = (st, evs, c)
    ∧ (Ocr ∉ evs) ∧ said evs = [].
Proof.
  intros Hgate. unfold Binary64.loop_body, Binary64.sample.
  destruct (read_ok io); simpl.
  - rewrite Hgate. do 2 eexists. split; [done|]. split; [|done].
    intros [H|[H|H]%elem_of_cons]%elem_of_cons; try done. by apply elem_of_nil in H.
  - do 2 eexists. split; [done|]. split; [|done].
    intros [H|H]%elem_of_cons; [done|]. by apply elem_of_nil in H.
Qed.

End Gate64.

(** C8. On a frame that was read, the iteration takes a sample (the clock
    moves to [now] and the OCR engine runs) exactly when the double
    [now - last_ocr] is at least [ocr_interval], and leaves the locals alone
    otherwise. With the doubles written 9.0 and 1.2 for the last sample and
    the interval, it does not sample at 10.0 and does at 10.3; the difference
    is the rounded one: at 10.2 it does not sample, though 10.2 - 9.0 is 1.2
    on paper, and from 0.2 it samples at 1.4, though the double 1.4 less the
    double 0.2 is below the double 1.2. *)
Theorem should_sample_spec (config : AppConfig) (io : Iteration) (st : Locals) :
  read_ok io = true →
  (let '(st', evs, _) := Binary64.loop_body config io st in
   ((ocr_interval config <= Binary64.round64 (clock io - last_ocr st))%Q →
    last_ocr st' = clock io ∧ Ocr ∈ evs)
   ∧ ((Binary64.round64 (clock io - last_ocr st) < ocr_interval config)%Q →
      st' = st ∧ Ocr ∉ evs))
  ∧ Binary64.should_sample (Binary64.round64 10.0) (Binary64.round64 9.0)
      (Binary64.round64 1.2) = false
  ∧ Binary64.should_sample (Binary64.round64 10.3) (Binary64.round64 9.0)
      (Binary64.round64 1.2) = true
  ∧ Binary64.should_sample (Binary64.round64 10.2) (Binary64.round64 9.0)
      (Binary64.round64 1.2) = false
  ∧ Binary64.should_sample (Binary64.round64 1.4) (Binary64.round64 0.2)
      (Binary64.round64 1.2) = true
  ∧ (Binary64.round64 1.4 - Binary64.round64 0.2 < Binary64.round64 1.2)%Q.
Proof.
  intros Hok. split; [|repeat split; by vm_compute].
  destruct (Binary64.should_sample (clock io) (last_ocr st) (ocr_interval config))
    eqn:Hgate.
  - destruct (loop_body64_open config io st Hok Hgate)
      as (st' & evs & c & -> & Hclock & Hocr).
    split; [done|]. intros Hlt%should_sample64_false. congruence.
  - destruct (loop_body64_shut config io st Hgate) as (evs & c & -> & Hocr & _).
    split; [|done]. intros Hle%should_sample64_iff. congruence.
Qed.

Lemma should_sample_spec_witness :
  let config := {| camera_index := 0; ocr_interval := Binary64.round64 1.2;
                   min_text_length := 4;
                   similarity_threshold := Binary64.round64 0.8 |} in
  let io := {| read_ok := true; ocr_raw := "Hello World";
               clock := Binary64.round64 1.4; key := (-1) |} in
  let st := {| last_text := ""; last_ocr := Binary64.round64 0.2 |} in
  let '(st', evs, _) := Binary64.loop_body config io st in
  ((ocr_interval config <= Binary64.round64 (clock io - last_ocr st))%Q →
   last_ocr st' = clock io ∧ Ocr ∈ evs)
  ∧ ((Binary64.round64 (clock io - last_ocr st) < ocr_interval config)%Q →
     st' = st ∧ Ocr ∉ evs).
Proof.
  intros config io st.
  apply (should_sample_spec config io st). reflexivity.
Defined.

(** X12. Frames that come when the double [now - last_ocr] is below
    [ocr_interval] are shown but never read by the OCR engine or spoken, and
    they leave the locals as they were. *)
Theorem idle_within_interval (config : AppConfig) (ios : list Iteration) (st : Locals) :
  Forall (λ io, (Binary64.round64 (clock io - last_ocr st)
                 < ocr_interval config)%Q) ios →
  let '(st', evs, _) := Binary64.loop config ios st in
  st' = st ∧ (Ocr ∉ evs) ∧ said evs = [].
Proof.
  induction 1 as [|io ios Hio _ IH]; simpl.
  - split; [done|]. split; [apply not_elem_of_nil|done].
  - apply should_sample64_false in Hio.
    destruct (loop_body64_shut config io st Hio) as (evs & c & -> & Hocr & Hsaid).
    destruct c; [|done|done].
    destruct (Binary64.loop config ios st) as [[st' evs'] c'].
    destruct IH as (-> & Hocr' & Hsaid').
    split; [done|]. rewrite said_app, Hsaid, Hsaid'. split; [|done].
    intros [?|?]%elem_of_app; tauto.
Qed.

Lemma idle_within_interval_witness :
  let config := {| camera_index := 0; ocr_interval := Binary64.round64 1.2;
                   min_text_length := 4;
                   similarity_threshold := Binary64.round64 0.8 |} in
  let st := {| last_text := "Hello World"; last_ocr := Binary64.round64 9.0 |} in
  let io1 := {| read_ok := true; ocr_raw := "Goodbye Friend";
                clock := Binary64.round64 10.2; key := (-1) |} in
  let io2 := {| read_ok := false; ocr_raw := ""; clock := Binary64.round64 10.0;
                key := 113 |} in
  let '(st', evs, _) := Binary64.loop config [io1; io2] st in
  st' = st ∧ (Ocr ∉ evs) ∧ said evs = [].
Proof.
  intros config st io1 io2.
  apply (idle_within_interval config [io1; io2] st).
  repeat constructor; by vm_compute.
Defined.
